(** * Mython: lexer and runtime object model

    A shallow embedding of [lexer.h], [lexer.cpp] and [runtime.cpp],
    together with the properties of the lexer's token stream, of the cursor,
    of method lookup and of the comparison protocol.

    Conventions.
    - A [std::istream] is a buffer of the characters still to be read plus
      the two state bits the code observes ([eofbit], [failbit]).
    - A member function that takes [std::istream&] and mutates the lexer is a
      function from the stream and the lexer to the new stream and lexer.
    - [throw] is the [Throws] outcome; behaviour the language leaves
      undefined (reading an indeterminate [char], dereferencing a null
      pointer) is the [Undefined] outcome.
    - The only unbounded loop, [while (istr)] of [ParseInputStream], takes a
      step bound; every other loop consumes a character (or two spaces of
      indentation) per round and is bounded by what is left to consume. *)

From Stdlib Require Import ZArith Lia Bool List Ascii.
From stdpp Require Import base decidable option list strings gmap pretty.
Import ListNotations.

Local Open Scope Z_scope.

(** ** Exceptions and outcomes *)

(** The exception classes the code throws.  [LexerError] derives from
    [std::runtime_error]; [std::out_of_range] derives from
    [std::logic_error].  Each carries its [what()] message. *)
Inductive exception : Type :=
| LexerError (what : string)
| runtime_error (what : string)
| logic_error (what : string)
| out_of_range (what : string).

Definition is_LexerError (e : exception) : bool :=
  match e with LexerError _ => true | _ => false end.

Inductive outcome (A : Type) : Type :=
| Normal (a : A)
| Throws (e : exception)
| Undefined.
Arguments Normal {A} a.
Arguments Throws {A} e.
Arguments Undefined {A}.

(** Sequencing: the first [throw] (or undefined step) ends the computation.
    With this instance, [x ← m; k] and ['(x, y) ← m; k] are available. *)
#[global] Instance outcome_bind : MBind outcome := fun A B k m =>
  match m with
  | Normal a => k a
  | Throws e => Throws e
  | Undefined => Undefined
  end.

(** ** Characters *)

Definition NL : ascii := "010"%char.
Definition CR : ascii := "013"%char.
Definition TAB : ascii := "009"%char.
Definition SPACE : ascii := " "%char.
Definition DQUOTE : ascii := "034"%char.
Definition SQUOTE : ascii := "'"%char.
Definition BACKSLASH : ascii := "\"%char.
Definition HASH : ascii := "#"%char.

(** [<cctype>] in the default "C" locale; bytes above 127 belong to no class. *)
Definition between (lo hi : nat) (c : ascii) : bool :=
  let n := nat_of_ascii c in Nat.leb lo n && Nat.leb n hi.

Definition isdigit (c : ascii) : bool := between 48 57 c.
Definition isalpha (c : ascii) : bool := between 65 90 c || between 97 122 c.
Definition isalnum (c : ascii) : bool := isalpha c || isdigit c.
Definition ispunct (c : ascii) : bool :=
  between 33 47 c || between 58 64 c || between 91 96 c || between 123 126 c.

(** [c == d] on an optional character: [peek()] compared with a character
    constant is false at end of stream. *)
Definition peeked_is (p : option ascii) (d : ascii) : bool :=
  match p with
  | Some c => Ascii.eqb c d
  | None => false
  end.

(** ** Input streams *)

Module ios.

Record istream : Type := mk_istream {
  buf : list ascii;     (* characters not yet extracted *)
  eofbit : bool;
  failbit : bool
}.

Definition from_string (s : list ascii) : istream :=
  {| buf := s; eofbit := false; failbit := false |}.

Definition good (s : istream) : bool := negb (eofbit s) && negb (failbit s).

(** [explicit operator bool]: [!fail()]. *)
Definition to_bool (s : istream) : bool := negb (failbit s).

(** [rdstate() == std::ios_base::eofbit]: eofbit and nothing else. *)
Definition rdstate_is_eofbit (s : istream) : bool := eofbit s && negb (failbit s).

Definition setstate_fail (s : istream) : istream :=
  {| buf := buf s; eofbit := eofbit s; failbit := true |}.

(** [peek()]: the sentry sets failbit on a stream that is not good; on a good
    stream the next character is returned without extracting it and eofbit
    is set when there is none. *)
Definition peek (s : istream) : option ascii * istream :=
  if good s then
    match buf s with
    | c :: _ => (Some c, s)
    | [] => (None, {| buf := []; eofbit := true; failbit := failbit s |})
    end
  else (None, setstate_fail s).

(** [get()] and [get(ch)]: extract one character; at end of stream set
    eofbit and failbit and extract nothing ([ch] keeps its old value). *)
Definition get (s : istream) : option ascii * istream :=
  if good s then
    match buf s with
    | c :: r => (Some c, {| buf := r; eofbit := eofbit s; failbit := failbit s |})
    | [] => (None, {| buf := []; eofbit := true; failbit := true |})
    end
  else (None, setstate_fail s).

(** [putback(c)]: clears eofbit first, then the sentry; on a good stream the
    character becomes the next one to read.  Every call in the lexer puts
    back the character it has just extracted, so the buffer always has room
    to step back. *)
Definition putback (c : ascii) (s : istream) : istream :=
  let s1 := {| buf := buf s; eofbit := false; failbit := failbit s |} in
  if good s1 then {| buf := c :: buf s1; eofbit := false; failbit := false |}
  else setstate_fail s1.

(** The characters after the first [delim], when there is one. *)
Fixpoint after_delim (delim : ascii) (l : list ascii) : option (list ascii) :=
  match l with
  | [] => None
  | c :: r => if Ascii.eqb c delim then Some r else after_delim delim r
  end.

(** [std::getline(s, tmp, delim)] with the line itself dropped: extracts up
    to and including the first [delim]; when the stream ends first, eofbit is
    set, and failbit too when nothing at all was extracted. *)
Definition getline (delim : ascii) (s : istream) : istream :=
  if good s then
    match after_delim delim (buf s) with
    | Some r => {| buf := r; eofbit := false; failbit := false |}
    | None => {| buf := []; eofbit := true;
                 failbit := match buf s with [] => true | _ => false end |}
    end
  else setstate_fail s.

End ios.
Import ios.

(** ** Tokens ([lexer.h]) *)

Module parse.

Module token_type.

Inductive Token : Type :=
| Number (value : Z)
| Id (value : string)
| Char (value : ascii)
| String (value : string)
| Class | Return | If | Else | Def
| Newline | Print | Indent | Dedent
| And | Or | Not
| Eq | NotEq | LessOrEq | GreaterOrEq
| None | True | False
| Eof.

End token_type.

Abbreviation Token := token_type.Token.

#[global] Instance Token_eq_dec : EqDecision Token.
Proof. solve_decision. Defined.

(** [Is<token_type::Newline>()] *)
Definition Is_Newline (t : Token) : bool :=
  match t with token_type.Newline => true | _ => false end.

(** ** The lexer ([lexer.h], [lexer.cpp]) *)

(** The state of a [Lexer] object; [current_token_it_] is the offset of the
    iterator from [tokens_.begin()].  ([in_stream_] is a reference that is
    stored and never read.) *)
Record Lexer : Type := mk_Lexer {
  tokens_ : list Token;
  current_token_it_ : nat;
  global_indent_counter_ : Z
}.

Definition SPACES_PER_INDENT : Z := 2.

Definition keywords_map_ : gmap string Token :=
  list_to_map
    [ ("class", token_type.Class); ("return", token_type.Return);
      ("if", token_type.If); ("else", token_type.Else);
      ("def", token_type.Def); ("print", token_type.Print);
      ("and", token_type.And); ("or", token_type.Or);
      ("not", token_type.Not); ("None", token_type.None);
      ("True", token_type.True); ("False", token_type.False) ].

(** [tokens_.emplace_back(t)] / [tokens_.push_back(t)] *)
Definition emplace_back (t : Token) (self : Lexer) : Lexer :=
  {| tokens_ := tokens_ self ++ [t];
     current_token_it_ := current_token_it_ self;
     global_indent_counter_ := global_indent_counter_ self |}.

Definition add_indent (d : Z) (self : Lexer) : Lexer :=
  {| tokens_ := tokens_ self;
     current_token_it_ := current_token_it_ self;
     global_indent_counter_ := global_indent_counter_ self + d |}.

(** [!tokens_.empty() && !tokens_.back().Is<token_type::Newline>()] *)
Definition back_is_not_Newline (self : Lexer) : bool :=
  match last (tokens_ self) with
  | Some t => negb (Is_Newline t)
  | Datatypes.None => false
  end.

(** [result.push_back(ch)] on a [std::string] *)
Definition push_back (s : string) (c : ascii) : string :=
  String.append s (String c EmptyString).

(** *** [TrimSpaces]: [while (istr.peek() == ' ') istr.get();] *)
Fixpoint TrimSpaces_loop (n : nat) (istr : istream) : istream :=
  let '(p, istr) := peek istr in
  if peeked_is p SPACE then
    match n with
    | S n' => TrimSpaces_loop n' (snd (get istr))
    | O => snd (get istr)
    end
  else istr.

Definition TrimSpaces (istr : istream) : istream :=
  TrimSpaces_loop (length (buf istr)) istr.

(** *** [ParseComments] *)
Definition ParseComments (istr : istream) : istream :=
  let '(ch, istr) := peek istr in
  if peeked_is ch HASH then
    let istr := getline NL istr in
    if negb (rdstate_is_eofbit istr) then putback NL istr else istr
  else istr.

(** *** [ParseIndent] *)

(** [while (istr.get(ch) && (ch == ' ')) ++spaces_processed;]
    [ch] is [None] while the variable is uninitialised. *)
Fixpoint ParseIndent_spaces (n : nat) (istr : istream) (ch : option ascii)
    (spaces_processed : Z) : istream * option ascii * Z :=
  match get istr with
  | (Some c, istr) =>
      if Ascii.eqb c SPACE then
        match n with
        | S n' => ParseIndent_spaces n' istr (Some c) (spaces_processed + 1)
        | O => (istr, Some c, spaces_processed + 1)
        end
      else (istr, Some c, spaces_processed)
  | (Datatypes.None, istr) => (istr, ch, spaces_processed)
  end.

(** [while (spaces_processed > 0) { spaces_processed -= SPACES_PER_INDENT;
      tokens_.emplace_back(tok); global_indent_counter_ += d; }]
    with [tok], [d] = [Indent], [+1] in the first loop and [Dedent], [-1] in
    the second. *)
Fixpoint ParseIndent_emit (n : nat) (tok : Token) (d : Z)
    (spaces_processed : Z) (self : Lexer) : Lexer :=
  match n with
  | O => self
  | S n' =>
      if 0 <? spaces_processed then
        ParseIndent_emit n' tok d (spaces_processed - SPACES_PER_INDENT)
          (add_indent d (emplace_back tok self))
      else self
  end.

Definition ParseIndent (istr : istream) (self : Lexer)
  : outcome (istream * Lexer) :=
  let '(p, istr) := peek istr in
  match p with
  | Datatypes.None => Normal (istr, self)
  | Some _ =>
    let '(istr, ch, spaces_processed) :=
      ParseIndent_spaces (length (buf istr)) istr Datatypes.None 0 in
    (* if (istr.rdstate() != eofbit) { istr.putback(ch); if (ch == '\n') return; } *)
    '(istr, blank) ←
      (if negb (rdstate_is_eofbit istr) then
         match ch with
         | Some c => Normal (putback c istr, Ascii.eqb c NL)
         | Datatypes.None => Undefined
         end
       else Normal (istr, false));
    if blank : bool then Normal (istr, self)
    else
      let g := global_indent_counter_ self in
      let self :=
        if g * SPACES_PER_INDENT <? spaces_processed then
          let sp := spaces_processed - g * SPACES_PER_INDENT in
          ParseIndent_emit (Z.to_nat sp) token_type.Indent 1 sp self
        else if spaces_processed <? g * SPACES_PER_INDENT then
          let sp := g * SPACES_PER_INDENT - spaces_processed in
          ParseIndent_emit (Z.to_nat sp) token_type.Dedent (-1) sp self
        else self in
      if global_indent_counter_ self <? 0 then
        Throws (LexerError
          (String.append "ParseIndent() produced negative global indent: "
                         (pretty (global_indent_counter_ self))))
      else Normal (istr, self)
  end.

(** *** [ParseString] *)

(** The [switch (esc_ch)] of [ParseString]: the character an escape stands
    for, or the [default:] branch. *)
Definition escape (esc_ch : ascii) : outcome ascii :=
  if Ascii.eqb esc_ch "n" then Normal NL
  else if Ascii.eqb esc_ch "t" then Normal TAB
  else if Ascii.eqb esc_ch "r" then Normal CR
  else if Ascii.eqb esc_ch DQUOTE then Normal DQUOTE
  else if Ascii.eqb esc_ch SQUOTE then Normal SQUOTE
  else if Ascii.eqb esc_ch BACKSLASH then Normal BACKSLASH
  else Throws (logic_error
    (push_back "ParseString() has encountered unknown escape sequence \" esc_ch)).

(** [while (istr.get(ch)) { ... }]: returns the stream, the last value of
    [ch] ([None] while uninitialised) and [result]. *)
Fixpoint ParseString_chars (n : nat) (open_char : ascii) (istr : istream)
    (ch : option ascii) (result : string)
  : outcome (istream * option ascii * string) :=
  match get istr with
  | (Some c, istr) =>
      if Ascii.eqb c open_char then Normal (istr, Some c, result)
      else
        match n with
        | O => Normal (istr, Some c, result)
        | S n' =>
            if Ascii.eqb c BACKSLASH then
              match get istr with
              | (Some esc_ch, istr) =>
                  e ← escape esc_ch;
                  ParseString_chars n' open_char istr (Some c) (push_back result e)
              | (Datatypes.None, _) =>
                  Throws (LexerError
                    "ParseString() has encountered unexpected end of stream after a backslash")
              end
            else if Ascii.eqb c NL || Ascii.eqb c CR then
              Throws (LexerError
                "ParseString() has encountered NL or CR symbol within a string")
            else ParseString_chars n' open_char istr (Some c) (push_back result c)
        end
  | (Datatypes.None, istr) => Normal (istr, ch, result)
  end.

Definition ParseString (istr : istream) (self : Lexer)
  : outcome (istream * Lexer) :=
  let '(p, istr) := peek istr in
  match p with
  | Datatypes.None => Normal (istr, self)
  | Some _ =>
    match get istr with
    | (Datatypes.None, _) => Undefined
    | (Some open_char, istr) =>
      if Ascii.eqb open_char SQUOTE || Ascii.eqb open_char DQUOTE then
        '(istr, ch, result) ←
          ParseString_chars (length (buf istr)) open_char istr Datatypes.None
            EmptyString;
        match ch with
        | Datatypes.None => Undefined     (* [open_char == ch], [ch] never written *)
        | Some c =>
            if Ascii.eqb open_char c then
              Normal (istr, emplace_back (token_type.String result) self)
            else
              Throws (LexerError
                "ParseString() has exited without find end-of-string character")
        end
      else Normal (putback open_char istr, self)
    end
  end.

(** *** [ParseKeywords] *)

(** [while (istr.get(ch)) { if (isalnum(ch) || ch == '_') keyword.push_back(ch);
      else { istr.putback(ch); break; } }] *)
Fixpoint ParseKeywords_word (n : nat) (istr : istream) (keyword : string)
  : istream * string :=
  match get istr with
  | (Some c, istr) =>
      if isalnum c || Ascii.eqb c "_" then
        match n with
        | S n' => ParseKeywords_word n' istr (push_back keyword c)
        | O => (istr, push_back keyword c)
        end
      else (putback c istr, keyword)
  | (Datatypes.None, istr) => (istr, keyword)
  end.

Definition ParseKeywords (istr : istream) (self : Lexer)
  : outcome (istream * Lexer) :=
  let '(p, istr) := peek istr in
  match p with
  | Datatypes.None => Normal (istr, self)
  | Some _ =>
    let '(ch, istr) := peek istr in
    match ch with
    | Datatypes.None => Normal (istr, self)
    | Some ch =>
      if isalpha ch || Ascii.eqb ch "_" then
        let '(istr, keyword) :=
          ParseKeywords_word (length (buf istr)) istr EmptyString in
        match keywords_map_ !! keyword with
        | Some t => Normal (istr, emplace_back t self)
        | Datatypes.None => Normal (istr, emplace_back (token_type.Id keyword) self)
        end
      else Normal (istr, self)
    end
  end.

(** *** [ParseChars] *)

(** [(ch == c0) && (istr.peek() == '=')]: the stream is peeked only when the
    first test holds. *)
Definition followed_by_eq (ch c0 : ascii) (istr : istream) : bool * istream :=
  if Ascii.eqb ch c0 then
    let '(p, istr) := peek istr in (peeked_is p "=", istr)
  else (false, istr).

Definition ParseChars (istr : istream) (self : Lexer)
  : outcome (istream * Lexer) :=
  let '(p, istr) := peek istr in
  match p with
  | Datatypes.None => Normal (istr, self)
  | Some _ =>
    match get istr with
    | (Datatypes.None, _) => Undefined
    | (Some ch, istr) =>
      if ispunct ch then
        if Ascii.eqb ch HASH then
          Normal (ParseComments (putback ch istr), self)
        else
          let '(b, istr) := followed_by_eq ch "=" istr in
          if b then Normal (snd (get istr), emplace_back token_type.Eq self) else
          let '(b, istr) := followed_by_eq ch "!" istr in
          if b then Normal (snd (get istr), emplace_back token_type.NotEq self) else
          let '(b, istr) := followed_by_eq ch ">" istr in
          if b then Normal (snd (get istr), emplace_back token_type.GreaterOrEq self) else
          let '(b, istr) := followed_by_eq ch "<" istr in
          if b then Normal (snd (get istr), emplace_back token_type.LessOrEq self) else
          Normal (istr, emplace_back (token_type.Char ch) self)
      else Normal (putback ch istr, self)
    end
  end.

(** *** [ParseNumbers] *)

Definition INT_MAX : Z := 2147483647.

Definition digit_value (c : ascii) : Z := Z.of_nat (nat_of_ascii c) - 48.

Fixpoint decimal (acc : Z) (s : string) : Z :=
  match s with
  | EmptyString => acc
  | String c r => decimal (acc * 10 + digit_value c) r
  end.

(** [std::stoi] on a non-empty string of decimal digits (all [ParseNumbers]
    passes): the value, or [std::out_of_range] when it does not fit [int]. *)
Definition stoi (s : string) : outcome Z :=
  let v := decimal 0 s in
  if v <=? INT_MAX then Normal v else Throws (out_of_range "stoi").

Fixpoint ParseNumbers_digits (n : nat) (istr : istream) (result : string)
  : istream * string :=
  match get istr with
  | (Some c, istr) =>
      if isdigit c then
        match n with
        | S n' => ParseNumbers_digits n' istr (push_back result c)
        | O => (istr, push_back result c)
        end
      else (putback c istr, result)
  | (Datatypes.None, istr) => (istr, result)
  end.

Definition ParseNumbers (istr : istream) (self : Lexer)
  : outcome (istream * Lexer) :=
  let '(p, istr) := peek istr in
  match p with
  | Datatypes.None => Normal (istr, self)
  | Some _ =>
    let '(ch, istr) := peek istr in
    match ch with
    | Datatypes.None => Normal (istr, self)
    | Some ch =>
      if isdigit ch then
        let '(istr, result) :=
          ParseNumbers_digits (length (buf istr)) istr EmptyString in
        num ← stoi result;
        Normal (istr, emplace_back (token_type.Number num) self)
      else Normal (istr, self)
    end
  end.

(** *** [ParseNewLine] *)
Definition ParseNewLine (istr : istream) (self : Lexer)
  : outcome (istream * Lexer) :=
  let '(ch, istr) := peek istr in
  if peeked_is ch NL then
    let istr := snd (get istr) in
    let self :=
      if back_is_not_Newline self then emplace_back token_type.Newline self
      else self in
    ParseIndent istr self
  else Normal (istr, self).

(** *** [ParseInputStream] *)

(** One round of the [while (istr)] loop. *)
Definition ParseInputStream_round (istr : istream) (self : Lexer)
  : outcome (istream * Lexer) :=
  '(istr, self) ← ParseString istr self;
  '(istr, self) ← ParseKeywords istr self;
  '(istr, self) ← ParseChars istr self;
  '(istr, self) ← ParseNumbers istr self;
  ParseNewLine (TrimSpaces istr) self.

(** [while (istr) { ... }], at most [fuel] rounds; [None] when the bound is
    reached with the loop still running. *)
Fixpoint ParseInputStream_loop (fuel : nat) (istr : istream) (self : Lexer)
  : option (outcome (istream * Lexer)) :=
  if to_bool istr then
    match fuel with
    | O => Datatypes.None
    | S fuel' =>
        match ParseInputStream_round istr self with
        | Normal (istr, self) => ParseInputStream_loop fuel' istr self
        | Throws e => Some (Throws e)
        | Undefined => Some Undefined
        end
    end
  else Some (Normal (istr, self)).

(** [while (global_indent_counter_ > 0) { tokens_.emplace_back(Dedent{});
      --global_indent_counter_; }] *)
Fixpoint ParseInputStream_dedent (n : nat) (self : Lexer) : Lexer :=
  match n with
  | O => self
  | S n' =>
      if 0 <? global_indent_counter_ self then
        ParseInputStream_dedent n'
          (add_indent (-1) (emplace_back token_type.Dedent self))
      else self
  end.

(** What follows the loop in [ParseInputStream]. *)
Definition ParseInputStream_finish (self : Lexer) : Lexer :=
  let self :=
    if back_is_not_Newline self then emplace_back token_type.Newline self
    else self in
  let self :=
    ParseInputStream_dedent (Z.to_nat (global_indent_counter_ self)) self in
  let self := emplace_back token_type.Eof self in
  {| tokens_ := tokens_ self;
     current_token_it_ := 0%nat;
     global_indent_counter_ := global_indent_counter_ self |}.

Definition ParseInputStream (fuel : nat) (istr : istream)
  : option (outcome (istream * Lexer)) :=
  let self :=
    {| tokens_ := []; current_token_it_ := 0%nat; global_indent_counter_ := 0 |} in
  let istr := TrimSpaces istr in
  match ParseInputStream_loop fuel istr self with
  | Some (Normal (istr, self)) => Some (Normal (istr, ParseInputStream_finish self))
  | other => other
  end.

(** [Lexer::Lexer(std::istream& input)] on a stream holding [input]: the
    constructed lexer, the exception thrown, or [None] when [fuel] rounds
    of the main loop were not enough. *)
Definition Lexer_ctor (fuel : nat) (input : list ascii)
  : option (outcome Lexer) :=
  match ParseInputStream fuel (from_string input) with
  | Some r => Some ('(_, self) ← r; Normal self)
  | Datatypes.None => Datatypes.None
  end.

(** *** The cursor *)

(** [*it] for the iterator at offset [i]; past the end it is undefined. *)
Definition deref (self : Lexer) (i : nat) : outcome Token :=
  match tokens_ self !! i with
  | Some t => Normal t
  | Datatypes.None => Undefined
  end.

Definition CurrentToken (self : Lexer) : outcome Token :=
  deref self (current_token_it_ self).

Definition NextToken (self : Lexer) : outcome Token * Lexer :=
  if Nat.eqb (current_token_it_ self + 1) (length (tokens_ self)) then
    (deref self (current_token_it_ self), self)
  else
    let self :=
      {| tokens_ := tokens_ self;
         current_token_it_ := (current_token_it_ self + 1)%nat;
         global_indent_counter_ := global_indent_counter_ self |} in
    (deref self (current_token_it_ self), self).

(** The tokens of [input], when construction succeeds within [fuel] rounds. *)
Definition lex (fuel : nat) (input : list ascii) : option (list Token) :=
  match Lexer_ctor fuel input with
  | Some (Normal self) => Some (tokens_ self)
  | _ => Datatypes.None
  end.

Definition bytes (s : string) : list ascii := String.list_ascii_of_string s.

(** *** Shapes of token streams *)

(** Occurrences of [t] in [ts]. *)
Definition count (t : Token) (ts : list Token) : nat :=
  count_occ Token_eq_dec ts t.

(** The indentation depth after a token, from the depth before it. *)
Definition depth_step (d : Z) (t : Token) : Z :=
  match t with
  | token_type.Indent => d + 1
  | token_type.Dedent => d - 1
  | _ => d
  end.

(** The depth after [ts] starting from depth [d], when the depth never goes
    below zero on the way. *)
Fixpoint running (d : Z) (ts : list Token) : option Z :=
  match ts with
  | [] => Some d
  | t :: ts => if depth_step d t <? 0 then Datatypes.None
               else running (depth_step d t) ts
  end.

(** Tokens that carry no structure: not [Indent], [Dedent] or [Eof]. *)
Definition plain (t : Token) : bool :=
  match t with
  | token_type.Indent | token_type.Dedent | token_type.Eof => false
  | _ => true
  end.

(** The stream is [Eof] alone or ends with [Newline; Eof]. *)
Definition ends_Newline_Eof (ts : list Token) : bool :=
  match rev ts with
  | [token_type.Eof] => true
  | token_type.Eof :: token_type.Newline :: _ => true
  | _ => false
  end.

(** *** The lexer under construction *)

(** [self] with [ts] appended to its tokens. *)
Definition appends (ts : list Token) (self : Lexer) : Lexer :=
  {| tokens_ := tokens_ self ++ ts;
     current_token_it_ := current_token_it_ self;
     global_indent_counter_ := global_indent_counter_ self |}.

(** [self'] is [self] with plain tokens appended. *)
Definition adds_plain (self self' : Lexer) : Prop :=
  exists ts, self' = appends ts self /\ forallb plain ts = true.

(** What holds of the lexer all along [ParseInputStream]: the counter is the
    depth after the tokens emitted so far, which never went below zero, and
    no [Eof] has been emitted. *)
Definition Inv (self : Lexer) : Prop :=
  running 0 (tokens_ self) = Some (global_indent_counter_ self)
  /\ count token_type.Eof (tokens_ self) = 0%nat.

(** The lexer constructed from the two lines [x] and [  y]. *)
Definition lexer_x_y : Lexer :=
  mk_Lexer [token_type.Id "x"; token_type.Newline; token_type.Indent;
            token_type.Id "y"; token_type.Newline; token_type.Dedent;
            token_type.Eof] 0 0.

(** The lexer constructed from the line [x], after two calls of
    [NextToken]. *)
Definition lexer_x_at_end : Lexer :=
  mk_Lexer [token_type.Id "x"; token_type.Newline; token_type.Eof] 2 0.

(** Lexers obtained by construction followed by calls of [NextToken]. *)
Inductive constructed : Lexer -> Prop :=
| constructed_ctor fuel input self :
    Lexer_ctor fuel input = Some (Normal self) -> constructed self
| constructed_NextToken self :
    constructed self -> constructed (snd (NextToken self)).

(** The physical lines of a source text, each followed by a newline. *)
Definition lines (ls : list string) : list ascii :=
  concat (map (fun l => bytes l ++ [NL]) ls).

(** *** Well-formed token streams *)

(** [keywords_map_.find(w) != keywords_map_.end()] *)
Definition is_reserved (w : string) : bool :=
  match keywords_map_ !! w with
  | Some _ => true
  | Datatypes.None => false
  end.

(** What the payload of a token satisfies: a number fits in a non-negative
    [int], an identifier is no reserved word, a character is punctuation
    other than the comment sign. *)
Definition well_formed (t : Token) : bool :=
  match t with
  | token_type.Number v => (0 <=? v) && (v <=? INT_MAX)
  | token_type.Id w => negb (is_reserved w)
  | token_type.Char c => ispunct c && negb (Ascii.eqb c HASH)
  | _ => true
  end.

(** Tokens of the four token parsers: neither structural nor [Newline]. *)
Definition word (t : Token) : bool := plain t && negb (Is_Newline t).

(** Whether [t] may come right after [prev] ([None] at the start of the
    stream). *)
Definition may_follow (prev : option Token) (t : Token) : bool :=
  match t with
  | token_type.Newline =>
      match prev with
      | Some p => negb (Is_Newline p)
      | Datatypes.None => false
      end
  | token_type.Indent =>
      match prev with
      | Datatypes.None | Some token_type.Newline | Some token_type.Indent => true
      | _ => false
      end
  | token_type.Dedent =>
      match prev with
      | Some token_type.Newline | Some token_type.Dedent => true
      | _ => false
      end
  | _ => true
  end.

Fixpoint placed (prev : option Token) (ts : list Token) : bool :=
  match ts with
  | [] => true
  | t :: ts => may_follow prev t && placed (Some t) ts
  end.

(** The last token of [ts], or [prev] when there is none. *)
Definition last_or (prev : option Token) (ts : list Token) : option Token :=
  match last ts with
  | Some t => Some t
  | Datatypes.None => prev
  end.

(** [self'] is [self], or [self] with one well-formed word token more. *)
Definition emits (self self' : Lexer) : Prop :=
  self' = self
  \/ exists t, self' = emplace_back t self /\ word t = true
               /\ well_formed t = true.

(** What also holds all along [ParseInputStream]: every token is well
    formed and well placed. *)
Definition Placed (self : Lexer) : Prop :=
  placed Datatypes.None (tokens_ self) = true
  /\ forallb well_formed (tokens_ self) = true.

(** *** Token comparison and the checked accessors ([lexer.h], [lexer.cpp]) *)

(** [std::variant::index()]: the position of the alternative in [TokenBase]. *)
Definition index (t : Token) : nat :=
  match t with
  | token_type.Number _ => 0 | token_type.Id _ => 1
  | token_type.Char _ => 2 | token_type.String _ => 3
  | token_type.Class => 4 | token_type.Return => 5
  | token_type.If => 6 | token_type.Else => 7
  | token_type.Def => 8 | token_type.Newline => 9
  | token_type.Print => 10 | token_type.Indent => 11
  | token_type.Dedent => 12 | token_type.And => 13
  | token_type.Or => 14 | token_type.Not => 15
  | token_type.Eq => 16 | token_type.NotEq => 17
  | token_type.LessOrEq => 18 | token_type.GreaterOrEq => 19
  | token_type.None => 20 | token_type.True => 21
  | token_type.False => 22 | token_type.Eof => 23
  end.

(** [As<T>()] is [std::get<T>]: the payload, or [std::bad_variant_access]
    (here [None]) when the token holds another alternative. *)
Definition As_Number (t : Token) : option Z :=
  match t with token_type.Number v => Some v | _ => Datatypes.None end.
Definition As_Id (t : Token) : option string :=
  match t with token_type.Id v => Some v | _ => Datatypes.None end.
Definition As_Char (t : Token) : option ascii :=
  match t with token_type.Char v => Some v | _ => Datatypes.None end.
Definition As_String (t : Token) : option string :=
  match t with token_type.String v => Some v | _ => Datatypes.None end.

(** [bool operator==(const Token& lhs, const Token& rhs)]; [None] when
    [std::bad_variant_access] escapes. *)
Definition Token_eq (lhs rhs : Token) : option bool :=
  if negb (Nat.eqb (index lhs) (index rhs)) then Some false
  else if Nat.eqb (index lhs) 2 then
    a ← As_Char lhs; b ← As_Char rhs; Some (Ascii.eqb a b)
  else if Nat.eqb (index lhs) 0 then
    a ← As_Number lhs; b ← As_Number rhs; Some (a =? b)
  else if Nat.eqb (index lhs) 3 then
    a ← As_String lhs; b ← As_String rhs; Some (String.eqb a b)
  else if Nat.eqb (index lhs) 1 then
    a ← As_Id lhs; b ← As_Id rhs; Some (String.eqb a b)
  else Some true.

(** [bool operator!=(const Token& lhs, const Token& rhs)] *)
Definition Token_ne (lhs rhs : Token) : option bool :=
  negb <$> Token_eq lhs rhs.

(** [Expect<T>()], with [T] given by its index: the token under the cursor
    when it holds a [T], else [LexerError]. *)
Definition Expect (T : nat) (self : Lexer) : outcome Token :=
  t ← deref self (current_token_it_ self);
  if negb (Nat.eqb (index t) T) then
    Throws (LexerError "Token::Expect() method has failed.")
  else CurrentToken self.

(** [Expect<T>(value)], with [other_token] the token [T{value}]; [None] when
    [std::bad_variant_access] escapes from the comparison. *)
Definition Expect_value (other_token : Token) (self : Lexer)
  : option (outcome unit) :=
  match deref self (current_token_it_ self) with
  | Normal t =>
      ne ← Token_ne t other_token;
      Some (if ne : bool then
              Throws (LexerError "Token::Expect(value) method has failed.")
            else Normal tt)
  | Throws e => Some (Throws e)
  | Undefined => Some Undefined
  end.

(** [ExpectNext<T>()]: [NextToken(); return Expect<T>();] *)
Definition ExpectNext (T : nat) (self : Lexer) : outcome Token * Lexer :=
  let '(r, self) := NextToken self in
  (_ ← r; Expect T self, self).

(** [k] calls of [NextToken]. *)
Definition advance (k : nat) (self : Lexer) : Lexer :=
  Nat.iter k (fun s => snd (NextToken s)) self.

(** *** Source text of single tokens *)

(** The stream after a loop of [get] that has read up to [rest]: positioned
    on [rest] when a character stopped the loop and was put back, with
    eofbit and failbit set when the stream ended. *)
Definition stopped_at (rest : list ascii) : istream :=
  match rest with
  | [] => {| buf := []; eofbit := true; failbit := true |}
  | _ => from_string rest
  end.

(** Whether [rest] begins with a character of class [f]. *)
Definition head_is (f : ascii -> bool) (rest : list ascii) : bool :=
  match rest with
  | c :: _ => f c
  | [] => false
  end.

(** [isalnum(ch) || ch == '_'] *)
Definition is_word_char (c : ascii) : bool := isalnum c || Ascii.eqb c "_".

(** A character of a string written inside a literal: the six characters
    that have an escape are written with it, every other one as it is. *)
Definition escape_char (c : ascii) : list ascii :=
  if Ascii.eqb c NL then [BACKSLASH; "n"%char]
  else if Ascii.eqb c TAB then [BACKSLASH; "t"%char]
  else if Ascii.eqb c CR then [BACKSLASH; "r"%char]
  else if Ascii.eqb c DQUOTE then [BACKSLASH; DQUOTE]
  else if Ascii.eqb c SQUOTE then [BACKSLASH; SQUOTE]
  else if Ascii.eqb c BACKSLASH then [BACKSLASH; BACKSLASH]
  else [c].

Definition escaped (s : list ascii) : list ascii := flat_map escape_char s.

(** The token of a two-character operator that begins with [c]. *)
Definition compound (c : ascii) : option Token :=
  if Ascii.eqb c "=" then Some token_type.Eq
  else if Ascii.eqb c "!" then Some token_type.NotEq
  else if Ascii.eqb c ">" then Some token_type.GreaterOrEq
  else if Ascii.eqb c "<" then Some token_type.LessOrEq
  else Datatypes.None.

(** *** Progress of the main loop *)

(** What is left of a stream for the main loop: nothing once failbit is
    set, else the characters not yet extracted plus the one or two rounds
    that end the loop. *)
Definition remaining (istr : istream) : nat :=
  if failbit istr then 0%nat
  else (length (buf istr) + (if eofbit istr then 1 else 2))%nat.

(** [istr'] holds an end of the characters of [istr] and has no more left. *)
Definition shrinks (istr istr' : istream) : Prop :=
  suffix (buf istr') (buf istr) /\ (remaining istr' <= remaining istr)%nat.

(** Printable ASCII (space included) and the newline. *)
Definition handled (c : ascii) : bool := between 32 126 c || Ascii.eqb c NL.

(** *** Printing tokens *)

(** What [operator<<(std::ostream&, const Token&)] writes: the name of the
    alternative, followed by the payload in braces for the four
    alternatives that have one. *)
Definition print_valued (type : string) (value : string) : string :=
  String.append type (String.append "{" (String.append value "}")).

Definition print (rhs : Token) : string :=
  match rhs with
  | token_type.Number value => print_valued "Number" (pretty value)
  | token_type.Id value => print_valued "Id" value
  | token_type.String value => print_valued "String" value
  | token_type.Char value => print_valued "Char" (String value EmptyString)
  | token_type.Class => "Class" | token_type.Return => "Return"
  | token_type.If => "If" | token_type.Else => "Else"
  | token_type.Def => "Def" | token_type.Newline => "Newline"
  | token_type.Print => "Print" | token_type.Indent => "Indent"
  | token_type.Dedent => "Dedent" | token_type.And => "And"
  | token_type.Or => "Or" | token_type.Not => "Not"
  | token_type.Eq => "Eq" | token_type.NotEq => "NotEq"
  | token_type.LessOrEq => "LessOrEq" | token_type.GreaterOrEq => "GreaterOrEq"
  | token_type.None => "None" | token_type.True => "True"
  | token_type.False => "False" | token_type.Eof => "Eof"
  end.

End parse.

(** ** The runtime object model ([runtime.cpp]) *)

Module runtime.

Section Runtime.

(** The statement executor is an external collaborator: [Executable] is the
    type of method bodies and [Context] the execution context threaded
    through every call. *)
Variable Executable : Type.
Variable Context : Type.

(** Modelled from the spec: [runtime.h], which declares [Method], [Class],
    [Object] and its subclasses, [ObjectHolder] and [Closure], is not among
    the sources.  A method record carries its name, the ordered list of
    formal parameter names and its body. *)
Record Method : Type := mk_Method {
  name : string;
  formal_params : list string;
  body : Executable
}.

(** Modelled from the spec: the members of [Class] as the constructor in
    [runtime.cpp] initialises them: a name, the own methods, an optional
    parent and the table from method name to method record.  ([vftable_]
    holds pointers to elements of [methods_] vectors; they are represented by
    the records pointed to.) *)
#[warnings="-register-all"]
Inductive Class : Type := mk_Class {
  name_ : string;
  methods_ : list Method;
  parent_ : option Class;
  vftable_ : gmap string Method
}.

(** Modelled from the spec: the concrete kinds of [Object].  An
    [ObjectHolder] is empty or refers to an object; a [Closure] maps names to
    holders; a [ClassInstance] has its class and its fields. *)
#[warnings="-register-all"]
Inductive Object : Type :=
| Number (value : Z)
| String (value : string)
| Bool (value : bool)
| ClassObject (cls : Class)
| ClassInstance (cls_ : Class) (fields_ : gmap string (option Object)).

Definition ObjectHolder : Type := option Object.
Definition Closure : Type := gmap string ObjectHolder.

(** [ObjectHolder::None()], [ObjectHolder::operator bool] *)
Definition ObjectHolder_None : ObjectHolder := None.
Definition to_bool (h : ObjectHolder) : bool :=
  match h with Some _ => true | None => false end.

(** Modelled from the spec: [ObjectHolder::TryAs<T>()], a template of the
    missing [runtime.h]: the object seen as a [T] (here the value a [Number],
    [String] or [Bool] holds, or the class and fields of an instance), or
    the null pointer when the handle is empty or the object is of another
    kind. *)
Definition TryAs_Number (h : ObjectHolder) : option Z :=
  match h with Some (Number v) => Some v | _ => None end.
Definition TryAs_String (h : ObjectHolder) : option string :=
  match h with Some (String v) => Some v | _ => None end.
Definition TryAs_Bool (h : ObjectHolder) : option bool :=
  match h with Some (Bool v) => Some v | _ => None end.
Definition TryAs_ClassInstance (h : ObjectHolder) : option (Class * Closure) :=
  match h with Some (ClassInstance c f) => Some (c, f) | _ => None end.

(** [bool IsTrue(const ObjectHolder&)] *)
Definition IsTrue (object : ObjectHolder) : bool :=
  if negb (to_bool object) then false
  else
    match TryAs_Number object, TryAs_Bool object, TryAs_String object with
    | Some v, _, _ => negb (v =? 0)
    | _, Some b, _ => b
    | _, _, Some s => negb (Nat.eqb (String.length s) 0)
    | _, _, _ => false
    end.

(** [Executable::Execute(closure, context)]: the handle the body yields and
    the context it leaves, or the exception it throws. *)
Variable Execute :
  Executable -> Closure -> Context -> outcome (ObjectHolder * Context).

(** *** [Class] *)

(** [for (const auto& m : methods) vftable_[m.name] = &m;] *)
Definition register (methods : list Method) (vftable : gmap string Method)
  : gmap string Method :=
  foldl (fun t m => <[name m := m]> t) vftable methods.

(** [Class::Class(name, methods, parent)] *)
Definition Class_ctor (name : string) (methods : list Method)
    (parent : option Class) : Class :=
  let vftable :=
    match parent with
    | Some p => register (methods_ p) ∅
    | None => ∅
    end in
  {| name_ := name; methods_ := methods; parent_ := parent;
     vftable_ := register methods vftable |}.

(** [Class::GetMethod(name)]: the method, or the null pointer. *)
Definition GetMethod (self : Class) (name : string) : option Method :=
  vftable_ self !! name.

(** *** [ClassInstance] *)

Definition HasMethod (cls_ : Class) (method : string) (argument_count : nat)
  : bool :=
  match GetMethod cls_ method with
  | Some method_ptr => Nat.eqb (length (formal_params method_ptr)) argument_count
  | None => false
  end.

(** [for (i = 0; i < formal_params.size(); ++i) closure[formal_params[i]] =
    actual_args[i];]  [Call] runs it with as many actuals as formals. *)
Fixpoint bind_params (formal_params : list string)
    (actual_args : list ObjectHolder) (closure : Closure) : Closure :=
  match formal_params, actual_args with
  | arg :: formal_params, a :: actual_args =>
      bind_params formal_params actual_args (<[arg := a]> closure)
  | _, _ => closure
  end.

(** [ClassInstance::Call(method, actual_args, context)] on the instance with
    class [cls_] and fields [fields_]; [self] is bound to the instance. *)
Definition Call (cls_ : Class) (fields_ : Closure) (method : string)
    (actual_args : list ObjectHolder) (context : Context)
  : outcome (ObjectHolder * Context) :=
  if HasMethod cls_ method (length actual_args) then
    let closure : Closure := {[ "self" := Some (ClassInstance cls_ fields_) ]} in
    match GetMethod cls_ method with
    | Some method_ptr =>
        Execute (body method_ptr)
          (bind_params (formal_params method_ptr) actual_args closure) context
    | None => Undefined
    end
  else Throws (runtime_error "Call for a not defined method").

(** *** Comparison *)

(** [result.TryAs<Bool>()->GetValue()]: the downcast is not checked. *)
Definition as_Bool_unchecked (result : ObjectHolder) (context : Context)
  : outcome (bool * Context) :=
  match TryAs_Bool result with
  | Some b => Normal (b, context)
  | None => Undefined
  end.

Definition Equal (lhs rhs : ObjectHolder) (context : Context)
  : outcome (bool * Context) :=
  if negb (to_bool lhs) && negb (to_bool rhs) then Normal (true, context)
  else
    match TryAs_Number lhs, TryAs_Number rhs with
    | Some l, Some r => Normal (l =? r, context)
    | _, _ =>
    match TryAs_String lhs, TryAs_String rhs with
    | Some l, Some r => Normal (String.eqb l r, context)
    | _, _ =>
    match TryAs_Bool lhs, TryAs_Bool rhs with
    | Some l, Some r => Normal (Bool.eqb l r, context)
    | _, _ =>
    match TryAs_ClassInstance lhs with
    | Some (cls, fields) =>
        if HasMethod cls "__eq__" 1 then
          '(result, context) ← Call cls fields "__eq__" [rhs] context;
          as_Bool_unchecked result context
        else Throws (runtime_error "Cannot compare objects for equality")
    | None => Throws (runtime_error "Cannot compare objects for equality")
    end end end end.

Definition Less (lhs rhs : ObjectHolder) (context : Context)
  : outcome (bool * Context) :=
  match TryAs_Number lhs, TryAs_Number rhs with
  | Some l, Some r => Normal (l <? r, context)
  | _, _ =>
  match TryAs_String lhs, TryAs_String rhs with
  | Some l, Some r => Normal (String.ltb l r, context)
  | _, _ =>
  match TryAs_Bool lhs, TryAs_Bool rhs with
  | Some l, Some r => Normal (negb l && r, context)
  | _, _ =>
  match TryAs_ClassInstance lhs with
  | Some (cls, fields) =>
      if HasMethod cls "__lt__" 1 then
        '(result, context) ← Call cls fields "__lt__" [rhs] context;
        as_Bool_unchecked result context
      else Throws (runtime_error "Cannot compare objects for less")
  | None => Throws (runtime_error "Cannot compare objects for less")
  end end end end.

Definition NotEqual (lhs rhs : ObjectHolder) (context : Context)
  : outcome (bool * Context) :=
  '(e, context) ← Equal lhs rhs context; Normal (negb e, context).

(** [!(Less(lhs, rhs, context) || Equal(lhs, rhs, context))]: [Equal] runs
    only when [Less] returned false. *)
Definition Greater (lhs rhs : ObjectHolder) (context : Context)
  : outcome (bool * Context) :=
  '(l, context) ← Less lhs rhs context;
  if l : bool then Normal (negb true, context)
  else '(e, context) ← Equal lhs rhs context; Normal (negb e, context).

Definition LessOrEqual (lhs rhs : ObjectHolder) (context : Context)
  : outcome (bool * Context) :=
  '(l, context) ← Less lhs rhs context;
  if l : bool then Normal (true, context)
  else Equal lhs rhs context.

Definition GreaterOrEqual (lhs rhs : ObjectHolder) (context : Context)
  : outcome (bool * Context) :=
  '(l, context) ← Less lhs rhs context; Normal (negb l, context).

(** *** Method resolution along the inheritance chain *)

(** The definition of [m] among the methods a class declares itself; of
    several with that name the last one counts, as in the constructor's
    loop. *)
Fixpoint own_method (methods : list Method) (m : string) : option Method :=
  match methods with
  | [] => None
  | x :: methods =>
      match own_method methods m with
      | Some y => Some y
      | None => if String.eqb (name x) m then Some x else None
      end
  end.

(** The first definition of [m] found scanning from the class toward its
    most distant ancestor (most-derived wins), as the specification words
    method resolution. *)
Fixpoint scan_chain (c : Class) (m : string) : option Method :=
  match c with
  | mk_Class _ methods parent _ =>
      match own_method methods m with
      | Some x => Some x
      | None =>
          match parent with
          | Some p => scan_chain p m
          | None => None
          end
      end
  end.

End Runtime.

Arguments mk_Method {Executable} name formal_params body.
Arguments name {Executable} m.
Arguments formal_params {Executable} m.
Arguments body {Executable} m.
Arguments mk_Class {Executable} name_ methods_ parent_ vftable_.
Arguments name_ {Executable} c.
Arguments methods_ {Executable} c.
Arguments parent_ {Executable} c.
Arguments vftable_ {Executable} c.
Arguments Number {Executable} value.
Arguments String {Executable} value.
Arguments Bool {Executable} value.
Arguments ClassObject {Executable} cls.
Arguments ClassInstance {Executable} cls_ fields_.
Arguments ObjectHolder_None {Executable}.
Arguments to_bool {Executable} h.
Arguments TryAs_Number {Executable} h.
Arguments TryAs_String {Executable} h.
Arguments TryAs_Bool {Executable} h.
Arguments TryAs_ClassInstance {Executable} h.
Arguments IsTrue {Executable} object.
Arguments register {Executable} methods vftable.
Arguments Class_ctor {Executable} name methods parent.
Arguments GetMethod {Executable} self name.
Arguments HasMethod {Executable} cls_ method argument_count.
Arguments bind_params {Executable} formal_params actual_args closure.
Arguments Call {Executable Context} Execute cls_ fields_ method actual_args context.
Arguments as_Bool_unchecked {Executable Context} result context.
Arguments Equal {Executable Context} Execute lhs rhs context.
Arguments Less {Executable Context} Execute lhs rhs context.
Arguments NotEqual {Executable Context} Execute lhs rhs context.
Arguments Greater {Executable Context} Execute lhs rhs context.
Arguments LessOrEqual {Executable Context} Execute lhs rhs context.
Arguments GreaterOrEqual {Executable Context} Execute lhs rhs context.
Arguments own_method {Executable} methods m.
Arguments scan_chain {Executable} c m.

(** *** A small executor for concrete runs

    Bodies that return a constant, whatever the closure, and leave the
    context (here without content) as it is. *)
Inductive constant_body : Type :=
| ReturnBool (b : bool)
| ReturnNumber (v : Z)
| ReturnNone.

Definition constant_Execute (b : constant_body)
    (closure : Closure constant_body) (context : unit)
  : outcome (ObjectHolder constant_body * unit) :=
  match b with
  | ReturnBool v => Normal (Some (Bool v), context)
  | ReturnNumber v => Normal (Some (Number v), context)
  | ReturnNone => Normal (None, context)
  end.

(** [class B] with [__lt__(other): return False] and nothing else, and an
    instance without fields. *)
Definition class_B : Class constant_body :=
  Class_ctor "B" [mk_Method "__lt__" ["other"] (ReturnBool false)] None.
Definition instance_of_B : ObjectHolder constant_body :=
  Some (ClassInstance class_B ∅).

(** A class whose [__eq__] and [__lt__] return a number. *)
Definition class_N : Class constant_body :=
  Class_ctor "N" [mk_Method "__eq__" ["other"] (ReturnNumber 1);
                  mk_Method "__lt__" ["other"] (ReturnNumber 1)] None.

(** A chain of three classes; only the most distant ancestor defines [m]. *)
Definition method_m : Method unit := mk_Method "m" [] tt.
Definition class_C3 : Class unit := Class_ctor "C3" [method_m] None.
Definition class_C2 : Class unit := Class_ctor "C2" [] (Some class_C3).
Definition class_C1 : Class unit := Class_ctor "C1" [] (Some class_C2).

(** *** Values of built-in kinds *)

(** Both handles hold a [Number], both a [String] or both a [Bool]: the
    operands the comparison functions compare by value. *)
Definition same_kind {Executable : Type} (a b : ObjectHolder Executable) : bool :=
  match a, b with
  | Some (Number _), Some (Number _)
  | Some (String _), Some (String _)
  | Some (Bool _), Some (Bool _) => true
  | _, _ => false
  end.

End runtime.

(** * Properties of the lexer *)

Module LexerProofs.

Import parse.

(** ** The scenarios of the specification *)

Example scenario_1 :
  lex 10 (lines ["x = 42"])
  = Some [token_type.Id "x"; token_type.Char "="; token_type.Number 42;
          token_type.Newline; token_type.Eof].
Proof. vm_compute. reflexivity. Qed.

Example scenario_2 :
  lex 20 (lines ["if x:"; "  y = 1"])
  = Some [token_type.If; token_type.Id "x"; token_type.Char ":";
          token_type.Newline; token_type.Indent; token_type.Id "y";
          token_type.Char "="; token_type.Number 1; token_type.Newline;
          token_type.Dedent; token_type.Eof].
Proof. vm_compute. reflexivity. Qed.

Example scenario_3 :
  lex 10 (bytes "s = " ++ [DQUOTE] ++ bytes "a\nb" ++ [DQUOTE; NL])
  = Some [token_type.Id "s"; token_type.Char "=";
          token_type.String (String "a" (String NL (String "b" EmptyString)));
          token_type.Newline; token_type.Eof].
Proof. vm_compute. reflexivity. Qed.

Example scenario_4 :
  lex 10 (lines ["a <= b != c"])
  = Some [token_type.Id "a"; token_type.LessOrEq; token_type.Id "b";
          token_type.NotEq; token_type.Id "c"; token_type.Newline;
          token_type.Eof].
Proof. vm_compute. reflexivity. Qed.

(** A character outside every class the lexer looks for (here a tab) is
    never consumed: a round leaves the stream and the lexer as they were, so
    the main loop does not end, whatever the number of rounds. *)
Example tab_is_never_consumed :
  ParseInputStream_round (from_string (TAB :: bytes "x")) (mk_Lexer [] 0 0)
  = Normal (from_string (TAB :: bytes "x"), mk_Lexer [] 0 0).
Proof. vm_compute. reflexivity. Qed.

Example tab_never_returns fuel : Lexer_ctor fuel (TAB :: bytes "x") = None.
Proof.
  unfold Lexer_ctor, ParseInputStream.
  change (TrimSpaces (from_string (TAB :: bytes "x")))
    with (from_string (TAB :: bytes "x")).
  assert (ParseInputStream_loop fuel (from_string (TAB :: bytes "x"))
            (mk_Lexer [] 0 0) = None) as ->; [|done].
  induction fuel as [|fuel IH]; [done|].
  cbn [ParseInputStream_loop to_bool from_string failbit negb].
  by rewrite tab_is_never_consumed.
Qed.

(** ** The bounds of the loops

    Each inner loop is run with the number of characters left in the stream
    as its bound.  A larger bound gives the same result: the bound is never
    what stops the loop. *)

Lemma get_shortens istr c istr' :
  get istr = (Some c, istr') ->
  good istr' = true /\ buf istr = c :: buf istr'.
Proof.
  unfold get. destruct istr as [b e f]; simpl.
  destruct e, f; simpl; try done.
  destruct b as [|c' b]; [done|]. by intros [= -> <-].
Qed.

Lemma ParseIndent_spaces_enough n : forall istr ch k,
  (length (buf istr) <= n)%nat ->
  ParseIndent_spaces n istr ch k
  = ParseIndent_spaces (length (buf istr)) istr ch k.
Proof.
  induction n as [|n IH]; intros istr ch k Hn.
  - by replace (length (buf istr)) with 0%nat by lia.
  - destruct (get istr) as [[c|] istr'] eqn:Eg.
    + destruct (get_shortens _ _ _ Eg) as [_ Hb]. rewrite Hb in Hn |- *.
      simpl in Hn. simpl. rewrite Eg.
      destruct (Ascii.eqb c SPACE); [|done]. apply IH. lia.
    + destruct (length (buf istr)); simpl; by rewrite Eg.
Qed.

Lemma ParseKeywords_word_enough n : forall istr keyword,
  (length (buf istr) <= n)%nat ->
  ParseKeywords_word n istr keyword
  = ParseKeywords_word (length (buf istr)) istr keyword.
Proof.
  induction n as [|n IH]; intros istr keyword Hn.
  - by replace (length (buf istr)) with 0%nat by lia.
  - destruct (get istr) as [[c|] istr'] eqn:Eg.
    + destruct (get_shortens _ _ _ Eg) as [_ Hb]. rewrite Hb in Hn |- *.
      simpl in Hn. simpl. rewrite Eg.
      destruct (isalnum c || Ascii.eqb c "_"); [|done]. apply IH. lia.
    + destruct (length (buf istr)); simpl; by rewrite Eg.
Qed.

Lemma ParseNumbers_digits_enough n : forall istr result,
  (length (buf istr) <= n)%nat ->
  ParseNumbers_digits n istr result
  = ParseNumbers_digits (length (buf istr)) istr result.
Proof.
  induction n as [|n IH]; intros istr result Hn.
  - by replace (length (buf istr)) with 0%nat by lia.
  - destruct (get istr) as [[c|] istr'] eqn:Eg.
    + destruct (get_shortens _ _ _ Eg) as [_ Hb]. rewrite Hb in Hn |- *.
      simpl in Hn. simpl. rewrite Eg.
      destruct (isdigit c); [|done]. apply IH. lia.
    + destruct (length (buf istr)); simpl; by rewrite Eg.
Qed.

Lemma ParseString_chars_enough n open_char : forall istr ch result,
  (length (buf istr) <= n)%nat ->
  ParseString_chars n open_char istr ch result
  = ParseString_chars (length (buf istr)) open_char istr ch result.
Proof.
  induction n as [n IH] using lt_wf_ind. intros istr ch result Hn.
  destruct (get istr) as [[c|] istr'] eqn:Eg.
  - destruct (get_shortens _ _ _ Eg) as [_ Hb]. rewrite Hb in Hn |- *.
    destruct n as [|n]; [simpl in Hn; lia|].
    simpl in Hn. simpl. rewrite Eg.
    destruct (Ascii.eqb c open_char); [done|].
    destruct (Ascii.eqb c BACKSLASH).
    + destruct (get istr') as [[e|] istr''] eqn:Eg'; [|done].
      destruct (get_shortens _ _ _ Eg') as [_ Hb'].
      destruct (escape e) as [x| |]; simpl; try done.
      rewrite (IH n) by (rewrite ?Hb' in *; simpl in *; lia).
      rewrite (IH (length (buf istr'))) by (rewrite ?Hb' in *; simpl in *; lia).
      done.
    + destruct (Ascii.eqb c NL || Ascii.eqb c CR); [done|].
      apply IH; lia.
  - destruct n, (length (buf istr)); simpl; by rewrite Eg.
Qed.

(** More rounds than needed change nothing in the outcome of the main
    loop, hence of construction. *)
Lemma ParseInputStream_loop_more fuel : forall fuel' istr self r,
  ParseInputStream_loop fuel istr self = Some r ->
  (fuel <= fuel')%nat ->
  ParseInputStream_loop fuel' istr self = Some r.
Proof.
  induction fuel as [|fuel IH]; intros fuel' istr self r; simpl.
  - destruct (to_bool istr) eqn:E; [done|]. intros H _.
    destruct fuel'; simpl; by rewrite E.
  - destruct (to_bool istr) eqn:E.
    + intros H Hle. destruct fuel' as [|fuel']; [lia|]. simpl. rewrite E.
      destruct (ParseInputStream_round istr self) as [[i s]| |]; try done.
      apply IH; [done|lia].
    + intros H _. destruct fuel'; simpl; by rewrite E.
Qed.

Lemma Lexer_ctor_more fuel fuel' input r :
  Lexer_ctor fuel input = Some r -> (fuel <= fuel')%nat ->
  Lexer_ctor fuel' input = Some r.
Proof.
  unfold Lexer_ctor, ParseInputStream. intros H Hle.
  destruct (ParseInputStream_loop fuel _ _) as [r0|] eqn:E; [|done].
  by rewrite (ParseInputStream_loop_more _ _ _ _ _ E Hle).
Qed.

(** ** What each part of a round emits *)

Lemma adds_plain_refl self : adds_plain self self.
Proof.
  exists []. split; [|done]. destruct self; unfold appends; simpl.
  by rewrite app_nil_r.
Qed.

Lemma adds_plain_one t self : plain t = true -> adds_plain self (emplace_back t self).
Proof. intros H. exists [t]. split; [done|]. simpl. by rewrite H. Qed.

Lemma adds_plain_trans a b c : adds_plain a b -> adds_plain b c -> adds_plain a c.
Proof.
  intros (t1 & -> & H1) (t2 & -> & H2). exists (t1 ++ t2). split.
  - unfold appends; simpl. by rewrite app_assoc.
  - rewrite forallb_app, H1, H2. done.
Qed.

Create HintDb lexer.
#[local] Hint Resolve adds_plain_refl adds_plain_one : lexer.

Ltac step_outcome :=
  repeat match goal with
  | H : Normal _ = Normal _ |- _ => injection H as H; subst
  | H : (_, _) = (_, _) |- _ => injection H as H; subst
  | H : Throws _ = Normal _ |- _ => discriminate H
  | H : Undefined = Normal _ |- _ => discriminate H
  | H : context [mbind _ ?m] |- _ => let E := fresh "E" in destruct m eqn:E; simpl in H
  | H : context [match ?x with _ => _ end] |- _ =>
      let E := fresh "E" in destruct x eqn:E; simpl in H
  end.

Lemma ParseString_tokens istr self istr' self' :
  ParseString istr self = Normal (istr', self') -> adds_plain self self'.
Proof.
  unfold ParseString. intros H. step_outcome; subst; auto with lexer.
Qed.

Lemma keywords_plain k t : keywords_map_ !! k = Some t -> plain t = true.
Proof.
  unfold keywords_map_. intros H.
  apply elem_of_list_to_map_2 in H.
  repeat (apply elem_of_cons in H as [H|H]; [by simplify_eq|]).
  by apply elem_of_nil in H.
Qed.

Lemma ParseKeywords_tokens istr self istr' self' :
  ParseKeywords istr self = Normal (istr', self') -> adds_plain self self'.
Proof.
  unfold ParseKeywords. intros H. step_outcome; subst; eauto using keywords_plain with lexer.
Qed.

Lemma ParseChars_tokens istr self istr' self' :
  ParseChars istr self = Normal (istr', self') -> adds_plain self self'.
Proof.
  unfold ParseChars. intros H. step_outcome; subst; auto with lexer.
Qed.

Lemma ParseNumbers_tokens istr self istr' self' :
  ParseNumbers istr self = Normal (istr', self') -> adds_plain self self'.
Proof.
  unfold ParseNumbers. intros H. step_outcome; subst; auto with lexer.
Qed.

(** ** Depth bookkeeping *)

Lemma running_app d a b :
  running d (a ++ b) = running d a ≫= fun d' => running d' b.
Proof.
  revert d. induction a as [|t a IH]; intros d; simpl; [done|].
  destruct (depth_step d t <? 0); [done|]. apply IH.
Qed.

Lemma running_nonneg ts : forall d d', 0 <= d -> running d ts = Some d' -> 0 <= d'.
Proof.
  induction ts as [|t ts IH]; intros d d' Hd; simpl.
  - intros [= <-]. done.
  - destruct (depth_step d t <? 0) eqn:E; [done|].
    apply IH. lia.
Qed.

Lemma running_plain ts : forall d,
  0 <= d -> forallb plain ts = true -> running d ts = Some d.
Proof.
  induction ts as [|t ts IH]; intros d Hd; simpl; [done|].
  intros [Ht Hts]%andb_true_iff.
  assert (depth_step d t = d) as -> by (by destruct t).
  destruct (d <? 0) eqn:E; [lia|]. by apply IH.
Qed.

Lemma count_app t a b : count t (a ++ b) = (count t a + count t b)%nat.
Proof. apply count_occ_app. Qed.

Lemma count_plain ts :
  forallb plain ts = true -> count token_type.Eof ts = 0%nat.
Proof.
  induction ts as [|t ts IH]; simpl; [done|].
  intros [Ht Hts]%andb_true_iff. unfold count in *. simpl.
  destruct (Token_eq_dec t token_type.Eof) as [->|]; [done|]. by apply IH.
Qed.

Lemma count_repeat_ne t u k : t <> u -> count t (repeat u k) = 0%nat.
Proof.
  intros Hne. unfold count. induction k as [|k IH]; simpl; [done|].
  destruct (Token_eq_dec u t); [congruence|done].
Qed.

(** The depth after a stream is the number of its [Indent]s minus the number
    of its [Dedent]s, and no prefix has more [Dedent]s than [Indent]s. *)
Lemma running_counts ts : forall d d',
  running d ts = Some d' ->
  d' = d + Z.of_nat (count token_type.Indent ts)
         - Z.of_nat (count token_type.Dedent ts).
Proof.
  induction ts as [|t ts IH]; intros d d'; simpl.
  - intros [= <-]. unfold count; simpl. lia.
  - destruct (depth_step d t <? 0); [done|]. intros H%IH.
    unfold count in *. simpl.
    destruct t; simpl in *;
      repeat match goal with
      | |- context [Token_eq_dec ?a ?b] => destruct (Token_eq_dec a b); try congruence
      end; lia.
Qed.

Lemma running_prefix a b d d' :
  running d (a ++ b) = Some d' -> exists m, running d a = Some m.
Proof.
  rewrite running_app. destruct (running d a); [eauto|done].
Qed.

(** ** The invariant of the lexer under construction *)

Lemma Inv_nonneg self : Inv self -> 0 <= global_indent_counter_ self.
Proof. intros [H _]. by eapply running_nonneg in H. Qed.

Lemma Inv_adds_plain self self' : adds_plain self self' -> Inv self -> Inv self'.
Proof.
  intros (ts & -> & Hts) HI. pose proof (Inv_nonneg _ HI) as Hg.
  destruct HI as [Hr He]. split; simpl.
  - rewrite running_app, Hr. simpl. by apply running_plain.
  - rewrite count_app, He, count_plain; done.
Qed.

Lemma Inv_emit_Indent n : forall sp self,
  Inv self -> Inv (ParseIndent_emit n token_type.Indent 1 sp self).
Proof.
  induction n as [|n IH]; intros sp self HI; simpl; [done|].
  destruct (0 <? sp); [|done]. apply IH.
  pose proof (Inv_nonneg _ HI) as Hg. destruct HI as [Hr He]. split; simpl.
  - rewrite running_app, Hr. simpl.
    destruct (global_indent_counter_ self + 1 <? 0) eqn:E; [lia|done].
  - rewrite count_app, He. done.
Qed.

Lemma Inv_emit_Dedent n : forall sp self,
  Inv self -> sp <= 2 * global_indent_counter_ self ->
  Inv (ParseIndent_emit n token_type.Dedent (-1) sp self).
Proof.
  induction n as [|n IH]; intros sp self HI Hsp; simpl; [done|].
  destruct (0 <? sp) eqn:E0; [|done]. apply IH.
  - destruct HI as [Hr He]. split; simpl.
    + rewrite running_app, Hr. simpl.
      destruct (global_indent_counter_ self - 1 <? 0) eqn:E; [lia|].
      f_equal; lia.
    + rewrite count_app, He. done.
  - simpl. unfold SPACES_PER_INDENT. lia.
Qed.

Lemma ParseIndent_spaces_count n : forall istr ch k istr' ch' k',
  ParseIndent_spaces n istr ch k = (istr', ch', k') -> k <= k'.
Proof.
  induction n as [|n IH]; intros istr ch k istr' ch' k'; simpl;
    destruct (get istr) as [[c|] istr1]; try destruct (Ascii.eqb c SPACE);
    intros H; try (apply IH in H); simplify_eq; lia.
Qed.

Lemma ParseIndent_Inv istr self istr' self' :
  ParseIndent istr self = Normal (istr', self') -> Inv self -> Inv self'.
Proof.
  unfold ParseIndent. intros H HI.
  destruct (peek istr) as [[c|] istr0]; [|by simplify_eq].
  destruct (ParseIndent_spaces _ _ _ _) as [[istr1 ch] sp] eqn:Esp.
  apply ParseIndent_spaces_count in Esp.
  match type of H with mbind _ ?m = _ => destruct m as [[istr2 blank]| |]; simpl in H; try done end.
  destruct blank; [by simplify_eq|].
  match type of H with (if ?b then _ else _) = _ => destruct b eqn:Eneg; [done|] end.
  injection H as <- <-.
  unfold SPACES_PER_INDENT.
  destruct (_ <? sp) eqn:E1; [by apply Inv_emit_Indent|].
  destruct (sp <? _) eqn:E2; [|done].
  apply Inv_emit_Dedent; [done|lia].
Qed.

Lemma ParseNewLine_Inv istr self istr' self' :
  ParseNewLine istr self = Normal (istr', self') -> Inv self -> Inv self'.
Proof.
  unfold ParseNewLine. intros H HI.
  destruct (peek istr) as [p istr0]. destruct (peeked_is p NL); [|by simplify_eq].
  eapply ParseIndent_Inv; [exact H|].
  destruct (back_is_not_Newline self); [|done].
  eapply Inv_adds_plain; [|done]. by apply adds_plain_one.
Qed.

Lemma ParseInputStream_round_Inv istr self istr' self' :
  ParseInputStream_round istr self = Normal (istr', self') -> Inv self -> Inv self'.
Proof.
  unfold ParseInputStream_round. intros H HI.
  destruct (ParseString istr self) as [[i1 s1]| |] eqn:E1; simpl in H; try done.
  destruct (ParseKeywords i1 s1) as [[i2 s2]| |] eqn:E2; simpl in H; try done.
  destruct (ParseChars i2 s2) as [[i3 s3]| |] eqn:E3; simpl in H; try done.
  destruct (ParseNumbers i3 s3) as [[i4 s4]| |] eqn:E4; simpl in H; try done.
  eapply ParseNewLine_Inv; [exact H|].
  apply ParseString_tokens in E1. apply ParseKeywords_tokens in E2.
  apply ParseChars_tokens in E3. apply ParseNumbers_tokens in E4.
  eapply Inv_adds_plain; [|exact HI].
  eauto using adds_plain_trans.
Qed.

Lemma ParseInputStream_loop_Inv fuel : forall istr self istr' self',
  ParseInputStream_loop fuel istr self = Some (Normal (istr', self')) ->
  Inv self -> Inv self'.
Proof.
  induction fuel as [|fuel IH]; intros istr self istr' self'; simpl;
    destruct (to_bool istr); try done; try (by intros; simplify_eq).
  destruct (ParseInputStream_round istr self) as [[i1 s1]| |] eqn:E; try done.
  eauto using ParseInputStream_round_Inv.
Qed.

(** ** The end of construction *)

Lemma ParseInputStream_dedent_run n : forall self,
  global_indent_counter_ self = Z.of_nat n ->
  ParseInputStream_dedent n self
  = {| tokens_ := tokens_ self ++ repeat token_type.Dedent n;
       current_token_it_ := current_token_it_ self;
       global_indent_counter_ := 0 |}.
Proof.
  induction n as [|n IH]; intros [ts cur g]; simpl; intros ->.
  - by rewrite app_nil_r.
  - rewrite IH; simpl; [|lia]. by rewrite <- app_assoc.
Qed.

Lemma running_repeat_Dedent k :
  running (Z.of_nat k) (repeat token_type.Dedent k) = Some 0.
Proof.
  induction k as [|k IH]; [done|].
  cbn [repeat running depth_step].
  replace (Z.of_nat (S k) - 1) with (Z.of_nat k) by lia.
  destruct (Z.ltb_spec (Z.of_nat k) 0); [lia|done].
Qed.

Lemma back_is_not_Newline_false self :
  back_is_not_Newline self = false ->
  tokens_ self = [] \/ exists pre, tokens_ self = pre ++ [token_type.Newline].
Proof.
  unfold back_is_not_Newline.
  destruct (tokens_ self) as [|t ts] using rev_ind; [by left|].
  rewrite last_snoc. destruct t; simpl; try done. eauto.
Qed.

(** The stream a successful construction leaves: nothing but [Eof], or a
    stream whose last [Newline] is followed by the [Dedent]s that close the
    blocks still open, then [Eof]. *)
Lemma ParseInputStream_finish_shape self :
  Inv self ->
  let ts := tokens_ (ParseInputStream_finish self) in
  current_token_it_ (ParseInputStream_finish self) = 0%nat
  /\ count token_type.Eof ts = 1%nat
  /\ running 0 ts = Some 0
  /\ (ts = [token_type.Eof]
      \/ exists pre k,
           ts = pre ++ [token_type.Newline] ++ repeat token_type.Dedent k
                    ++ [token_type.Eof]
           /\ running 0 pre = Some (Z.of_nat k)).
Proof.
  intros HI. unfold ParseInputStream_finish.
  set (s1 := if back_is_not_Newline self
             then emplace_back token_type.Newline self else self).
  assert (Inv s1) as HI1.
  { unfold s1. destruct (back_is_not_Newline self); [|done].
    eapply Inv_adds_plain; [|done]. by apply adds_plain_one. }
  assert (back_is_not_Newline s1 = false) as Hback.
  { unfold s1. destruct (back_is_not_Newline self) eqn:E; [|done].
    unfold back_is_not_Newline, emplace_back; simpl. by rewrite last_snoc. }
  pose proof (Inv_nonneg _ HI1) as Hg. destruct HI1 as [Hr He].
  rewrite ParseInputStream_dedent_run by lia. simpl.
  split; [done|]. split; [|split].
  - rewrite !count_app, He, count_repeat_ne by done. done.
  - rewrite !running_app, Hr. simpl.
    rewrite <- (Z2Nat.id (global_indent_counter_ s1)) at 1 by done.
    by rewrite running_repeat_Dedent.
  - apply back_is_not_Newline_false in Hback as [Hnil|[pre Hpre]].
    + left. rewrite Hnil in Hr |- *. simpl in Hr. injection Hr as <-. done.
    + right. exists pre, (Z.to_nat (global_indent_counter_ s1)).
      rewrite Hpre, <- !app_assoc. split; [done|].
      rewrite Hpre, running_app in Hr.
      destruct (running 0 pre) as [m|] eqn:Em; simpl in Hr; [|done].
      destruct (m <? 0); [done|]. injection Hr as ->. f_equal. lia.
Qed.

Lemma Inv_initial : Inv (mk_Lexer [] 0 0).
Proof. done. Qed.

Lemma Lexer_ctor_finish fuel input self :
  Lexer_ctor fuel input = Some (Normal self) ->
  exists self0, Inv self0 /\ self = ParseInputStream_finish self0.
Proof.
  unfold Lexer_ctor, ParseInputStream. intros H.
  destruct (ParseInputStream_loop _ _ _) as [[[istr self0]| |]|] eqn:E;
    simpl in H; try done.
  injection H as <-. exists self0. split; [|done].
  eapply ParseInputStream_loop_Inv; [exact E|apply Inv_initial].
Qed.

Lemma running_prefixes ts : forall d d',
  0 <= d -> running d ts = Some d' ->
  forall p s, ts = p ++ s ->
    (Z.of_nat (count token_type.Dedent p)
     <= d + Z.of_nat (count token_type.Indent p)).
Proof.
  intros d d' Hd Hr p s ->.
  destruct (running_prefix _ _ _ _ Hr) as [m Hm].
  pose proof (running_nonneg _ _ _ Hd Hm).
  apply running_counts in Hm. lia.
Qed.

Lemma ParseIndent_nonneg istr self istr' self' :
  ParseIndent istr self = Normal (istr', self') ->
  0 <= global_indent_counter_ self -> 0 <= global_indent_counter_ self'.
Proof.
  unfold ParseIndent. intros H Hg.
  destruct (peek istr) as [[c|] istr0]; [|by simplify_eq].
  destruct (ParseIndent_spaces _ _ _ _) as [[istr1 ch] sp].
  match type of H with mbind _ ?m = _ => destruct m as [[istr2 blank]| |]; simpl in H; try done end.
  destruct blank; [by simplify_eq|].
  match type of H with (if ?b then _ else _) = _ => destruct b eqn:Eneg; [done|] end.
  injection H as <- <-. lia.
Qed.

Lemma ParseIndent_throws istr self e :
  ParseIndent istr self = Throws e -> is_LexerError e = true.
Proof.
  unfold ParseIndent. intros H.
  destruct (peek istr) as [[c|] istr0]; [|done].
  destruct (ParseIndent_spaces _ _ _ _) as [[istr1 ch] sp].
  match type of H with mbind _ ?m = _ => destruct m as [[istr2 blank]| |] eqn:Em; simpl in H end.
  - destruct blank; [done|].
    match type of H with (if ?b then _ else _) = _ => destruct b; [|done] end.
    by injection H as <-.
  - destruct (negb _), ch; done.
  - done.
Qed.

(** ** The token stream of a constructed lexer *)

(** C6 (amended): the stream of every constructed lexer has exactly one
    [Eof], which is its last token; it is either [Eof] alone, or the tokens
    before [Eof] end with a [Newline] followed by the [k] [Dedent]s that
    close the [k] blocks open at the end of the input (none when [k = 0]). *)
Theorem Eof_once_after_Newline_and_Dedents fuel input self :
  Lexer_ctor fuel input = Some (Normal self) ->
  count token_type.Eof (tokens_ self) = 1%nat
  /\ last (tokens_ self) = Some token_type.Eof
  /\ (tokens_ self = [token_type.Eof]
      \/ exists pre k,
           tokens_ self
           = pre ++ [token_type.Newline] ++ repeat token_type.Dedent k
                 ++ [token_type.Eof]
           /\ running 0 pre = Some (Z.of_nat k)).
Proof.
  intros (self0 & HI & ->)%Lexer_ctor_finish.
  destruct (ParseInputStream_finish_shape self0 HI) as (_ & Hc & _ & Hshape).
  split; [done|]. split; [|done].
  destruct Hshape as [->|(pre & k & -> & _)]; [done|].
  by rewrite !app_assoc, last_snoc.
Qed.

Lemma Eof_once_after_Newline_and_Dedents_witness :
  Lexer_ctor 10 (lines ["x"; "  y"]) = Some (Normal lexer_x_y)
  /\ count token_type.Eof (tokens_ lexer_x_y) = 1%nat
  /\ last (tokens_ lexer_x_y) = Some token_type.Eof.
Proof.
  assert (Lexer_ctor 10 (lines ["x"; "  y"]) = Some (Normal lexer_x_y)) as H
    by (vm_compute; reflexivity).
  split; [exact H|].
  destruct (Eof_once_after_Newline_and_Dedents _ _ _ H) as (H1 & H2 & _).
  exact (conj H1 H2).
Defined.

(** C6 as stated fails: after an indented last line the token before [Eof]
    is a [Dedent], not a [Newline], and the stream is not [Eof] alone. *)
Lemma Eof_not_always_after_Newline :
  exists self,
    Lexer_ctor 20 (lines ["if x:"; "  y = 1"]) = Some (Normal self)
    /\ tokens_ self
       = [token_type.If; token_type.Id "x"; token_type.Char ":";
          token_type.Newline; token_type.Indent; token_type.Id "y";
          token_type.Char "="; token_type.Number 1; token_type.Newline;
          token_type.Dedent; token_type.Eof]
    /\ ends_Newline_Eof (tokens_ self) = false.
Proof. eexists. split; [vm_compute; reflexivity|]. split; reflexivity. Qed.

(** C7: in the stream of every constructed lexer there are as many [Indent]s
    as [Dedent]s, and no prefix of it has more [Dedent]s than [Indent]s.
    [ParseIndent] never returns with a negative depth, and the only
    exception it raises is [LexerError]. *)
Theorem Indent_Dedent_balanced fuel input self :
  Lexer_ctor fuel input = Some (Normal self) ->
  count token_type.Indent (tokens_ self) = count token_type.Dedent (tokens_ self)
  /\ (forall p s, tokens_ self = p ++ s ->
        (count token_type.Dedent p <= count token_type.Indent p)%nat)
  /\ (forall istr l istr' l',
        ParseIndent istr l = Normal (istr', l') ->
        0 <= global_indent_counter_ l -> 0 <= global_indent_counter_ l')
  /\ (forall istr l e, ParseIndent istr l = Throws e -> is_LexerError e = true).
Proof.
  intros (self0 & HI & ->)%Lexer_ctor_finish.
  destruct (ParseInputStream_finish_shape self0 HI) as (_ & _ & Hr & _).
  split; [|split; [|split]].
  - apply running_counts in Hr. lia.
  - intros p s Hps.
    pose proof (running_prefixes _ 0 0 ltac:(done) Hr p s Hps). lia.
  - apply ParseIndent_nonneg.
  - apply ParseIndent_throws.
Qed.

Lemma Indent_Dedent_balanced_witness :
  Lexer_ctor 10 (lines ["x"; "  y"]) = Some (Normal lexer_x_y)
  /\ count token_type.Indent (tokens_ lexer_x_y)
     = count token_type.Dedent (tokens_ lexer_x_y).
Proof.
  assert (Lexer_ctor 10 (lines ["x"; "  y"]) = Some (Normal lexer_x_y)) as H
    by (vm_compute; reflexivity).
  split; [exact H|].
  exact (proj1 (Indent_Dedent_balanced _ _ _ H)).
Defined.

(** ** The cursor *)

Lemma constructed_cursor self :
  constructed self ->
  exists pre, tokens_ self = pre ++ [token_type.Eof]
              /\ (current_token_it_ self <= length pre)%nat.
Proof.
  induction 1 as [fuel input self H|self _ (pre & Hts & Hcur)].
  - apply Lexer_ctor_finish in H as (self0 & HI & ->).
    destruct (ParseInputStream_finish_shape self0 HI) as (Hc & _ & _ & Hshape).
    rewrite Hc.
    destruct Hshape as [->|(pre & k & -> & _)].
    + exists []. split; [done|simpl; lia].
    + eexists. rewrite !app_assoc. split; [done|lia].
  - exists pre. unfold NextToken.
    destruct (Nat.eqb_spec (current_token_it_ self + 1) (length (tokens_ self)))
      as [Heq|Hne]; simpl; [done|].
    split; [done|]. rewrite Hts, length_app in Hne. simpl in Hne. lia.
Qed.

(** C9: on a constructed lexer whose cursor is not on the last token,
    [NextToken] moves the cursor one position forward and returns the token
    there; on the last token it leaves the lexer as it is and returns that
    token, which is [Eof], and so does every further call. *)
Theorem NextToken_advances_until_Eof self :
  constructed self ->
  let i := current_token_it_ self in
  let n := length (tokens_ self) in
  (i < n)%nat
  /\ ((i + 1 < n)%nat ->
      exists t, tokens_ self !! (i + 1)%nat = Some t
        /\ NextToken self
           = (Normal t, mk_Lexer (tokens_ self) (i + 1)
                          (global_indent_counter_ self)))
  /\ ((i + 1 = n)%nat ->
      tokens_ self !! i = Some token_type.Eof
      /\ NextToken self = (Normal token_type.Eof, self)
      /\ NextToken (snd (NextToken self)) = (Normal token_type.Eof, self)).
Proof.
  intros (pre & Hts & Hcur)%constructed_cursor. simpl.
  assert (length (tokens_ self) = S (length pre)) as Hlen
    by (rewrite Hts, length_app; simpl; lia).
  split; [lia|]. split.
  - intros Hlt. unfold NextToken.
    destruct (Nat.eqb_spec (current_token_it_ self + 1) (length (tokens_ self)))
      as [Heq|Hne]; [lia|].
    destruct (lookup_lt_is_Some_2 (tokens_ self) (current_token_it_ self + 1))
      as [t Ht]; [lia|].
    exists t. split; [done|]. unfold deref. simpl. by rewrite Ht.
  - intros Heq.
    assert (tokens_ self !! current_token_it_ self = Some token_type.Eof) as Ht.
    { rewrite Hts. replace (current_token_it_ self) with (length pre + 0)%nat by lia.
      by rewrite lookup_app_r, Nat.add_comm, Nat.add_sub by lia. }
    assert (NextToken self = (Normal token_type.Eof, self)) as HN.
    { unfold NextToken. rewrite (proj2 (Nat.eqb_eq _ _) Heq).
      unfold deref. by rewrite Ht. }
    by rewrite HN.
Qed.

Lemma NextToken_advances_until_Eof_witness :
  constructed lexer_x_at_end
  /\ NextToken lexer_x_at_end = (Normal token_type.Eof, lexer_x_at_end).
Proof.
  assert (constructed lexer_x_at_end) as H.
  { change lexer_x_at_end with
      (snd (NextToken (snd (NextToken
         (mk_Lexer [token_type.Id "x"; token_type.Newline; token_type.Eof] 0 0))))).
    do 2 apply constructed_NextToken.
    apply (constructed_ctor 10 (lines ["x"])). vm_compute; reflexivity. }
  split; [exact H|].
  exact (proj1 (proj2 (proj2 (proj2 (NextToken_advances_until_Eof lexer_x_at_end H))
                        eq_refl))).
Defined.

(** ** Leading spaces of the first line *)

Lemma TrimSpaces_loop_enough n : forall istr,
  (length (buf istr) <= n)%nat ->
  TrimSpaces_loop n istr = TrimSpaces_loop (length (buf istr)) istr.
Proof.
  induction n as [|n IH]; intros [b e f] Hn; simpl in Hn.
  - destruct b; [done|simpl in Hn; lia].
  - destruct b as [|c b]; [by destruct e, f|].
    destruct e, f; try done.
    cbn. destruct (Ascii.eqb c SPACE); [|done]. cbn.
    apply IH. simpl in *. lia.
Qed.

Lemma TrimSpaces_leading k rest :
  TrimSpaces (from_string (repeat SPACE k ++ rest)) = TrimSpaces (from_string rest).
Proof.
  unfold TrimSpaces. induction k as [|k IH]; [done|].
  cbn. exact IH.
Qed.

(** ** Indentation *)

Lemma ParseIndent_spaces_run s : forall n ch k c rest,
  c <> SPACE -> (s <= n)%nat ->
  ParseIndent_spaces n (from_string (repeat SPACE s ++ c :: rest)) ch k
  = (from_string rest, Some c, k + Z.of_nat s).
Proof.
  induction s as [|s IH]; intros n ch k c rest Hc Hn.
  - assert (Ascii.eqb c SPACE = false) as E by (by apply Ascii.eqb_neq).
    replace (k + Z.of_nat 0) with k by lia.
    destruct n; cbn; by rewrite E.
  - destruct n as [|n]; [lia|]. cbn.
    change (mk_istream ?b false false) with (from_string b).
    rewrite IH by (done || lia).
    replace (k + 1 + Z.of_nat s) with (k + Z.of_nat (S s)) by lia. done.
Qed.

Lemma ParseIndent_emit_run n : forall tok d sp self,
  sp <= Z.of_nat n ->
  ParseIndent_emit n tok d sp self
  = {| tokens_ := tokens_ self ++ repeat tok (Z.to_nat ((sp + 1) / 2));
       current_token_it_ := current_token_it_ self;
       global_indent_counter_ :=
         global_indent_counter_ self + d * Z.of_nat (Z.to_nat ((sp + 1) / 2)) |}.
Proof.
  induction n as [|n IH]; intros tok d sp [ts cur g] Hn; simpl.
  - assert ((sp + 1) / 2 < 1) by (apply Z.div_lt_upper_bound; lia).
    replace (Z.to_nat ((sp + 1) / 2)) with 0%nat by lia.
    simpl. rewrite app_nil_r. f_equal. lia.
  - destruct (Z.ltb_spec 0 sp) as [Hpos|Hneg].
    + unfold SPACES_PER_INDENT. rewrite IH by lia. simpl.
      assert ((sp + 1) / 2 = (sp - 2 + 1) / 2 + 1) as Hk.
      { replace (sp + 1) with (sp - 2 + 1 + 1 * 2) by lia.
        by rewrite Z.div_add. }
      assert (0 <= (sp - 2 + 1) / 2) by (apply Z.div_pos; lia).
      rewrite Hk, Z2Nat.inj_add by lia.
      rewrite Nat.add_comm. simpl. rewrite <- app_assoc. simpl.
      f_equal. lia.
    + assert ((sp + 1) / 2 < 1) by (apply Z.div_lt_upper_bound; lia).
      replace (Z.to_nat ((sp + 1) / 2)) with 0%nat by lia.
      simpl. rewrite app_nil_r. f_equal. lia.
Qed.

(** C8 (amended): the spaces that begin the first line are skipped before
    anything else is read: construction on an input that starts with spaces
    does exactly what it does on the input without them (no [Indent] for the
    first line, no error on account of the spaces). *)
Theorem leading_spaces_of_first_line_skipped fuel k rest :
  Lexer_ctor fuel (repeat SPACE k ++ rest) = Lexer_ctor fuel rest.
Proof. unfold Lexer_ctor, ParseInputStream. by rewrite TrimSpaces_leading. Qed.

(** C8 as stated fails: a source whose first line is indented is accepted,
    with the tokens of the same line without the indentation. *)
Lemma indented_first_line_accepted :
  Lexer_ctor 10 (lines ["  x = 1"])
  = Some (Normal (mk_Lexer [token_type.Id "x"; token_type.Char "=";
                            token_type.Number 1; token_type.Newline;
                            token_type.Eof] 0 0))
  /\ Lexer_ctor 10 (lines ["  x = 1"]) = Lexer_ctor 10 (lines ["x = 1"]).
Proof. split; vm_compute; reflexivity. Qed.

(** What the two loops of [ParseIndent] compute on a line that follows a
    newline and has [s] leading spaces before a character that is neither a
    space nor a newline, read at depth [g].  The falling loop stops at
    [s / 2]: when [s] does not exceed [2 g], one [Dedent] is emitted per
    level lost.  The rising loop subtracts two spaces per [Indent] while
    any space is left, so on an odd [s] above [2 g] it runs once too often
    and stops at [s / 2] rounded up, one level above the depth the falling
    loop gives the same line.  The spaces are consumed and the character is
    left in the stream. *)
Theorem ParseIndent_depth (s : nat) (c : ascii) (rest : list ascii) (self : Lexer) :
  c <> SPACE -> c <> NL -> 0 <= global_indent_counter_ self ->
  let g := global_indent_counter_ self in
  let rising := 2 * g <? Z.of_nat s in
  let g' := if rising then (Z.of_nat s + 1) / 2 else Z.of_nat s / 2 in
  ParseIndent (from_string (repeat SPACE s ++ c :: rest)) self
  = Normal (from_string (c :: rest),
            {| tokens_ :=
                 tokens_ self
                 ++ repeat (if rising then token_type.Indent else token_type.Dedent)
                           (Z.to_nat (Z.abs (g' - g)));
               current_token_it_ := current_token_it_ self;
               global_indent_counter_ := g' |}).
Proof.
  intros Hsp Hnl Hg. cbv zeta.
  unfold ParseIndent.
  assert (peek (from_string (repeat SPACE s ++ c :: rest))
          = (Some (hd c (repeat SPACE s ++ c :: rest)),
             from_string (repeat SPACE s ++ c :: rest))) as ->
    by (by destruct s).
  rewrite ParseIndent_spaces_run; [|done|simpl; rewrite length_app, repeat_length; lia].
  cbn [rdstate_is_eofbit from_string eofbit failbit negb andb].
  assert (Ascii.eqb c NL = false) as -> by (by apply Ascii.eqb_neq).
  cbn [mbind outcome_bind putback good eofbit failbit negb andb buf].
  replace (0 + Z.of_nat s) with (Z.of_nat s) by lia.
  unfold SPACES_PER_INDENT.
  replace (global_indent_counter_ self * 2) with (2 * global_indent_counter_ self) by lia.
  destruct self as [ts cur g]. simpl in *.
  pose proof (Z.div_mod (Z.of_nat s) 2 ltac:(done)) as Hdm.
  pose proof (Z.mod_pos_bound (Z.of_nat s) 2 ltac:(done)) as Hmb.
  pose proof (Z.div_mod (Z.of_nat s + 1) 2 ltac:(done)) as Hdm1.
  pose proof (Z.mod_pos_bound (Z.of_nat s + 1) 2 ltac:(done)) as Hmb1.
  destruct (Z.ltb_spec (2 * g) (Z.of_nat s)) as [Hlt|Hge].
  - rewrite ParseIndent_emit_run by lia. simpl.
    assert ((Z.of_nat s - 2 * g + 1) / 2 = (Z.of_nat s + 1) / 2 - g) as ->.
    { replace (Z.of_nat s - 2 * g + 1) with (Z.of_nat s + 1 + (- g) * 2) by lia.
      rewrite Z.div_add by done. lia. }
    rewrite Z.abs_eq by lia.
    rewrite Z2Nat.id by lia.
    replace (g + 1 * ((Z.of_nat s + 1) / 2 - g)) with ((Z.of_nat s + 1) / 2) by lia.
    destruct (Z.ltb_spec ((Z.of_nat s + 1) / 2) 0); [lia|done].
  - destruct (Z.ltb_spec (Z.of_nat s) (2 * g)) as [Hlt|Hge'].
    + rewrite ParseIndent_emit_run by lia. simpl.
      assert ((2 * g - Z.of_nat s + 1) / 2 = g - Z.of_nat s / 2) as ->.
      { assert ((Z.of_nat s + (2 * g - Z.of_nat s + 1)) / 2
                = Z.of_nat s / 2 + (2 * g - Z.of_nat s + 1) / 2
                \/ (Z.of_nat s + (2 * g - Z.of_nat s + 1)) / 2
                = Z.of_nat s / 2 + (2 * g - Z.of_nat s + 1) / 2 + 1) as Hcase.
        { pose proof (Z.div_mod (2 * g - Z.of_nat s + 1) 2 ltac:(done)).
          pose proof (Z.mod_pos_bound (2 * g - Z.of_nat s + 1) 2 ltac:(done)).
          pose proof (Z.div_mod (Z.of_nat s + (2 * g - Z.of_nat s + 1)) 2 ltac:(done)).
          pose proof (Z.mod_pos_bound (Z.of_nat s + (2 * g - Z.of_nat s + 1)) 2 ltac:(done)).
          lia. }
        pose proof (Z.div_mod (2 * g - Z.of_nat s + 1) 2 ltac:(done)).
        pose proof (Z.mod_pos_bound (2 * g - Z.of_nat s + 1) 2 ltac:(done)).
        lia. }
      rewrite Z.abs_neq by lia.
      rewrite Z2Nat.id by lia.
      replace (g + -1 * (g - Z.of_nat s / 2)) with (Z.of_nat s / 2) by lia.
      replace (- (Z.of_nat s / 2 - g)) with (g - Z.of_nat s / 2) by lia.
      destruct (Z.ltb_spec (Z.of_nat s / 2) 0); [lia|done].
    + assert (Z.of_nat s / 2 = g) as -> by lia.
      rewrite Z.sub_diag. simpl. rewrite app_nil_r.
      destruct (Z.ltb_spec g 0); [lia|done].
Qed.

Lemma ParseIndent_depth_witness :
  "y"%char <> SPACE /\ "y"%char <> NL /\ 0 <= 0
  /\ ParseIndent (from_string (bytes "   y"))
       (mk_Lexer [token_type.Id "x"; token_type.Newline] 0 0)
     = Normal (from_string (bytes "y"),
               mk_Lexer [token_type.Id "x"; token_type.Newline;
                         token_type.Indent; token_type.Indent] 0 2).
Proof.
  split; [discriminate|]. split; [discriminate|]. split; [lia|].
  exact (ParseIndent_depth 3 "y" []
           (mk_Lexer [token_type.Id "x"; token_type.Newline] 0 0)
           ltac:(discriminate) ltac:(discriminate) ltac:(simpl; lia)).
Defined.

(** A line with three leading spaces read at depth 0 yields two [Indent]s
    and depth 2, not the one [Indent] of 3 / 2 = 1. *)
Lemma three_spaces_two_Indents :
  lex 10 (lines ["x"; "   y"])
  = Some [token_type.Id "x"; token_type.Newline; token_type.Indent;
          token_type.Indent; token_type.Id "y"; token_type.Newline;
          token_type.Dedent; token_type.Dedent; token_type.Eof]
  /\ ParseIndent (from_string (bytes "   y"))
       (mk_Lexer [token_type.Id "x"; token_type.Newline] 0 0)
     = Normal (from_string (bytes "y"),
               mk_Lexer [token_type.Id "x"; token_type.Newline;
                         token_type.Indent; token_type.Indent] 0 2)
  /\ 3 / 2 = 1.
Proof. split; [|split]; vm_compute; reflexivity. Qed.

(** C4 fails on the code, where the depth rises: after the line [x], three
    lines of three leading spaces each are read at depths 2, 1 and 2 (two
    [Indent]s, then a [Dedent], then an [Indent]), although all three stand
    at the same column and 3 / 2 = 1 gives one [Indent] and then no change.
    Where the depth falls the code does land on 3 / 2: read at depth 3, the
    same three spaces give two [Dedent]s and depth 1. *)
Theorem odd_indentation_overshoots :
  lex 20 (lines ["x"; "   y"; "   z"; "   w"])
  = Some [token_type.Id "x"; token_type.Newline;
          token_type.Indent; token_type.Indent;
          token_type.Id "y"; token_type.Newline;
          token_type.Dedent;
          token_type.Id "z"; token_type.Newline;
          token_type.Indent;
          token_type.Id "w"; token_type.Newline;
          token_type.Dedent; token_type.Dedent; token_type.Eof]
  /\ ParseIndent (from_string (bytes "   y")) (mk_Lexer [] 0 0)
     = Normal (from_string (bytes "y"),
               mk_Lexer [token_type.Indent; token_type.Indent] 0 2)
  /\ ParseIndent (from_string (bytes "   z")) (mk_Lexer [] 0 2)
     = Normal (from_string (bytes "z"), mk_Lexer [token_type.Dedent] 0 1)
  /\ ParseIndent (from_string (bytes "   w")) (mk_Lexer [] 0 1)
     = Normal (from_string (bytes "w"), mk_Lexer [token_type.Indent] 0 2)
  /\ ParseIndent (from_string (bytes "   c")) (mk_Lexer [] 0 3)
     = Normal (from_string (bytes "c"),
               mk_Lexer [token_type.Dedent; token_type.Dedent] 0 1)
  /\ 3 / 2 = 1.
Proof. repeat split; vm_compute; reflexivity. Qed.

(** ** Blank lines *)

(** A line of spaces only leaves the lexer as it is, whatever the number of
    spaces, and the newline that ends it is left in the stream. *)
Lemma ParseIndent_blank_line (s : nat) (rest : list ascii) (self : Lexer) :
  ParseIndent (from_string (repeat SPACE s ++ NL :: rest)) self
  = Normal (from_string (NL :: rest), self).
Proof.
  unfold ParseIndent.
  assert (peek (from_string (repeat SPACE s ++ NL :: rest))
          = (Some (hd NL (repeat SPACE s ++ NL :: rest)),
             from_string (repeat SPACE s ++ NL :: rest))) as ->
    by (by destruct s).
  rewrite ParseIndent_spaces_run;
    [|done|simpl; rewrite length_app, repeat_length; lia].
  done.
Qed.

(** The round that finds that newline emits nothing when the last token is
    already a [Newline] (or there is none): it goes on to the indentation of
    the next line. *)
Lemma ParseInputStream_round_blank (rest : list ascii) (self : Lexer) :
  back_is_not_Newline self = false ->
  ParseInputStream_round (from_string (NL :: rest)) self
  = ParseIndent (from_string rest) self.
Proof.
  intros Hback. unfold ParseInputStream_round.
  change (ParseString (from_string (NL :: rest)) self)
    with (Normal (from_string (NL :: rest), self)).
  cbn [mbind outcome_bind].
  change (ParseKeywords (from_string (NL :: rest)) self)
    with (Normal (from_string (NL :: rest), self)).
  cbn [mbind outcome_bind].
  change (ParseChars (from_string (NL :: rest)) self)
    with (Normal (from_string (NL :: rest), self)).
  cbn [mbind outcome_bind].
  change (ParseNumbers (from_string (NL :: rest)) self)
    with (Normal (from_string (NL :: rest), self)).
  cbn [mbind outcome_bind].
  change (TrimSpaces (from_string (NL :: rest))) with (from_string (NL :: rest)).
  unfold ParseNewLine.
  change (peek (from_string (NL :: rest)))
    with (Some NL, from_string (NL :: rest)).
  cbn -[back_is_not_Newline ParseIndent]. by rewrite Hback.
Qed.

(** Together: after a newline, a line of spaces only is as if it were not
    there. *)
Lemma blank_line_ignored (s : nat) (rest : list ascii) (self : Lexer) :
  back_is_not_Newline self = false ->
  ('(istr, self) ← ParseIndent (from_string (repeat SPACE s ++ NL :: rest)) self;
   ParseInputStream_round istr self)
  = ParseIndent (from_string rest) self.
Proof.
  intros Hback. rewrite ParseIndent_blank_line. cbn [mbind outcome_bind].
  by apply ParseInputStream_round_blank.
Qed.

(** ** Escapes in string literals *)

Lemma ParseString_chars_unknown_escape open_char body : forall n ch result e x rest,
  Forall (fun c => Ascii.eqb c open_char = false /\ Ascii.eqb c BACKSLASH = false
                   /\ Ascii.eqb c NL = false /\ Ascii.eqb c CR = false) body ->
  open_char <> BACKSLASH ->
  escape e = Throws x ->
  (length body < n)%nat ->
  ParseString_chars n open_char (from_string (body ++ BACKSLASH :: e :: rest))
    ch result
  = Throws x.
Proof.
  induction body as [|c body IH]; intros n ch result e x rest Hbody Hq He Hn.
  - destruct n as [|n]; [simpl in Hn; lia|].
    assert (Ascii.eqb BACKSLASH open_char = false) as Hb
      by (apply Ascii.eqb_neq; congruence).
    cbn [ParseString_chars get from_string good buf eofbit failbit negb andb app].
    rewrite Hb, Ascii.eqb_refl, He. done.
  - destruct n as [|n]; [simpl in Hn; lia|].
    apply Forall_cons in Hbody as [(H1 & H2 & H3 & H4) Hbody].
    cbn [ParseString_chars get from_string good buf eofbit failbit negb andb app].
    rewrite H1, H2, H3, H4. cbn [orb].
    change (mk_istream ?b false false) with (from_string b).
    apply IH; try done. simpl in Hn. lia.
Qed.

(** A backslash followed by a character other than n, t, r, a quote or a
    backslash inside a literal (after characters copied as they are) makes
    [ParseString] throw
    [std::logic_error], which is not a [LexerError]. *)
Lemma ParseString_unknown_escape open_char body e rest self :
  open_char = SQUOTE \/ open_char = DQUOTE ->
  Forall (fun c => Ascii.eqb c open_char = false /\ Ascii.eqb c BACKSLASH = false
                   /\ Ascii.eqb c NL = false /\ Ascii.eqb c CR = false) body ->
  Forall (fun c => e <> c) [ "n"%char; "t"%char; "r"%char; DQUOTE; SQUOTE; BACKSLASH ] ->
  exists what,
    ParseString (from_string (open_char :: body ++ BACKSLASH :: e :: rest)) self
    = Throws (logic_error what).
Proof.
  intros Hq Hbody He.
  assert (exists what, escape e = Throws (logic_error what)) as [what Hesc].
  { unfold escape.
    repeat (apply Forall_cons in He as [Hne He]; apply Ascii.eqb_neq in Hne;
            rewrite Hne; clear Hne).
    eauto. }
  exists what. unfold ParseString.
  cbn [peek get from_string good buf eofbit failbit negb andb].
  assert (Ascii.eqb open_char SQUOTE || Ascii.eqb open_char DQUOTE = true) as ->
    by (by destruct Hq as [-> | ->]).
  change (mk_istream ?b false false) with (from_string b).
  rewrite (ParseString_chars_unknown_escape open_char body _ _ _ e
             (logic_error what) rest Hbody);
    [done| |exact Hesc|simpl; rewrite length_app; simpl; lia].
  destruct Hq as [-> | ->]; discriminate.
Qed.

(** The same for construction, when the literal begins the input. *)
Lemma Lexer_ctor_unknown_escape fuel open_char body e rest :
  open_char = SQUOTE \/ open_char = DQUOTE ->
  Forall (fun c => Ascii.eqb c open_char = false /\ Ascii.eqb c BACKSLASH = false
                   /\ Ascii.eqb c NL = false /\ Ascii.eqb c CR = false) body ->
  Forall (fun c => e <> c) [ "n"%char; "t"%char; "r"%char; DQUOTE; SQUOTE; BACKSLASH ] ->
  exists what,
    Lexer_ctor (S fuel) (open_char :: body ++ BACKSLASH :: e :: rest)
    = Some (Throws (logic_error what)).
Proof.
  intros Hq Hbody He.
  destruct (ParseString_unknown_escape open_char body e rest (mk_Lexer [] 0 0)
              Hq Hbody He) as [what Hwhat].
  exists what. unfold Lexer_ctor, ParseInputStream.
  assert (TrimSpaces (from_string (open_char :: body ++ BACKSLASH :: e :: rest))
          = from_string (open_char :: body ++ BACKSLASH :: e :: rest)) as ->
    by (by destruct Hq as [-> | ->]).
  cbn [ParseInputStream_loop to_bool from_string failbit negb].
  unfold ParseInputStream_round. by rewrite Hwhat.
Qed.

(** C3 fails on the code: the literal ['a\qb'] makes construction throw
    [std::logic_error], which is not a [LexerError], while the other errors
    of a literal (here a literal that is not closed) throw [LexerError]. *)
Theorem unknown_escape_throws_logic_error :
  Lexer_ctor 10 (bytes "s = 'a\qb'")
  = Some (Throws (logic_error
            "ParseString() has encountered unknown escape sequence \q"))
  /\ is_LexerError (logic_error
       "ParseString() has encountered unknown escape sequence \q") = false
  /\ Lexer_ctor 10 (bytes "s = 'a")
     = Some (Throws (LexerError
               "ParseString() has exited without find end-of-string character")).
Proof. repeat split; vm_compute; reflexivity. Qed.

(** C5 fails on the code: a comment-only line indented by two spaces between
    two lines at depth 0 yields [Indent], [Newline] and [Dedent] of its own,
    while the same line made of spaces only yields nothing. *)
Theorem comment_line_is_indent_handled :
  lex 10 (lines ["x"; "  # c"; "y"])
  = Some [token_type.Id "x"; token_type.Newline; token_type.Indent;
          token_type.Newline; token_type.Dedent; token_type.Id "y";
          token_type.Newline; token_type.Eof]
  /\ lex 10 (lines ["x"; "  "; "y"])
     = Some [token_type.Id "x"; token_type.Newline; token_type.Id "y";
             token_type.Newline; token_type.Eof].
Proof. split; vm_compute; reflexivity. Qed.


(** ** Well-formed and well-placed tokens *)

Lemma emits_refl self : emits self self.
Proof. by left. Qed.

Lemma emits_one t self :
  word t = true -> well_formed t = true -> emits self (emplace_back t self).
Proof. intros. right. eauto. Qed.

#[local] Hint Resolve emits_refl emits_one : lexer.

Lemma ParseString_emits istr self istr' self' :
  ParseString istr self = Normal (istr', self') -> emits self self'.
Proof.
  unfold ParseString. intros H. step_outcome; subst; auto with lexer.
Qed.

Lemma keywords_word k t :
  keywords_map_ !! k = Some t -> word t = true /\ well_formed t = true.
Proof.
  unfold keywords_map_. intros H.
  apply elem_of_list_to_map_2 in H.
  repeat (apply elem_of_cons in H as [H|H]; [by simplify_eq|]).
  by apply elem_of_nil in H.
Qed.

Lemma ParseKeywords_emits istr self istr' self' :
  ParseKeywords istr self = Normal (istr', self') -> emits self self'.
Proof.
  unfold ParseKeywords. intros H. step_outcome; subst; auto with lexer.
  - match goal with E : keywords_map_ !! _ = Some _ |- _ =>
      apply keywords_word in E as [? ?] end.
    auto with lexer.
  - apply emits_one; [done|]. unfold well_formed, is_reserved.
    match goal with E : keywords_map_ !! _ = Datatypes.None |- _ => by rewrite E end.
Qed.

Lemma ParseChars_emits istr self istr' self' :
  ParseChars istr self = Normal (istr', self') -> emits self self'.
Proof.
  unfold ParseChars. intros H. step_outcome; subst; auto with lexer.
  apply emits_one; [done|]. unfold well_formed.
  repeat match goal with E : _ = _ |- _ => rewrite E end. done.
Qed.

Lemma push_back_list l c :
  push_back (String.string_of_list_ascii l) c = String.string_of_list_ascii (l ++ [c]).
Proof.
  unfold push_back. induction l as [|a l IH]; simpl; [done|].
  by rewrite <- IH.
Qed.

Lemma decimal_digits s : forall acc,
  forallb isdigit (String.list_ascii_of_string s) = true -> 0 <= acc ->
  0 <= decimal acc s.
Proof.
  induction s as [|c s IH]; intros acc; simpl; [done|].
  intros [Hc Hs]%andb_true_iff Hacc. apply IH; [done|].
  unfold digit_value. unfold isdigit, between in Hc.
  apply andb_true_iff in Hc as [Hlo%Nat.leb_le _]. lia.
Qed.

Lemma list_ascii_push_back s c :
  String.list_ascii_of_string (push_back s c) = String.list_ascii_of_string s ++ [c].
Proof.
  unfold push_back. induction s as [|a s IH]; [done|].
  change (String.list_ascii_of_string (String a s +:+ String c EmptyString))
    with (a :: String.list_ascii_of_string (s +:+ String c EmptyString)).
  by rewrite IH.
Qed.

Lemma ParseNumbers_digits_digits n : forall istr result istr' result',
  ParseNumbers_digits n istr result = (istr', result') ->
  forallb isdigit (String.list_ascii_of_string result) = true ->
  forallb isdigit (String.list_ascii_of_string result') = true.
Proof.
  induction n as [|n IH]; intros istr result istr' result'; simpl;
    destruct (get istr) as [[c|] istr1]; try destruct (isdigit c) eqn:Ec;
    intros H Hr; try (apply IH in H; [done|]); simplify_eq; try done;
    rewrite list_ascii_push_back, forallb_app; simpl; by rewrite Hr, Ec.
Qed.

Lemma ParseNumbers_emits istr self istr' self' :
  ParseNumbers istr self = Normal (istr', self') -> emits self self'.
Proof.
  unfold ParseNumbers. intros H.
  destruct (peek istr) as [[c|] istr0]; [|simplify_eq; auto with lexer].
  destruct (peek istr0) as [[ch|] istr1]; [|simplify_eq; auto with lexer].
  destruct (isdigit ch); [|simplify_eq; auto with lexer].
  destruct (ParseNumbers_digits _ _ _) as [istr2 result] eqn:Ed.
  apply ParseNumbers_digits_digits in Ed; [|done].
  unfold stoi in H.
  destruct (Z.leb_spec (decimal 0 result) INT_MAX) as [Hle|]; simpl in H; [|done].
  injection H as <- <-. apply emits_one; [done|]. simpl.
  pose proof (decimal_digits result 0 Ed ltac:(done)).
  apply andb_true_iff. split; [by apply Z.leb_le|by apply Z.leb_le].
Qed.

Lemma placed_app a : forall prev b,
  placed prev (a ++ b) = placed prev a && placed (last_or prev a) b.
Proof.
  induction a as [|t a IH]; intros prev b; simpl; [done|].
  assert (last_or prev (t :: a) = last_or (Some t) a) as ->.
  { unfold last_or. destruct a as [|u a]; [done|].
    rewrite last_cons_cons.
    destruct (last (u :: a)) eqn:E; [done|]. by apply last_None in E. }
  by rewrite IH, andb_assoc.
Qed.

Lemma last_or_snoc prev ts t : last_or prev (ts ++ [t]) = Some t.
Proof. unfold last_or. by rewrite last_snoc. Qed.

Lemma placed_repeat_Indent prev k :
  match prev with
  | Datatypes.None | Some token_type.Newline | Some token_type.Indent => True
  | _ => False
  end ->
  placed prev (repeat token_type.Indent k) = true.
Proof.
  revert prev. induction k as [|k IH]; intros prev Hp; simpl; [done|].
  rewrite IH by done. by destruct prev as [[]|].
Qed.

Lemma placed_repeat_Dedent prev k :
  match prev with
  | Some token_type.Newline | Some token_type.Dedent => True
  | _ => False
  end ->
  placed prev (repeat token_type.Dedent k) = true.
Proof.
  revert prev. induction k as [|k IH]; intros prev Hp; simpl; [done|].
  rewrite IH by done. by destruct prev as [[]|].
Qed.

Lemma forallb_repeat {A} (f : A -> bool) x k :
  f x = true -> forallb f (repeat x k) = true.
Proof. intros H. induction k; simpl; [done|]. by rewrite H. Qed.

Lemma Placed_emits self self' : emits self self' -> Placed self -> Placed self'.
Proof.
  intros [->|(t & -> & Hw & Hwf)] [Hp Hf]; [done|]. split; simpl.
  - rewrite placed_app, Hp. simpl. by destruct t.
  - rewrite forallb_app, Hf. simpl. by rewrite Hwf.
Qed.

Lemma Placed_Newline self :
  back_is_not_Newline self = true -> Placed self ->
  Placed (emplace_back token_type.Newline self).
Proof.
  intros Hb [Hp Hf]. split; simpl.
  - rewrite placed_app, Hp. simpl. unfold back_is_not_Newline in Hb.
    unfold last_or. destruct (last (tokens_ self)); [by rewrite Hb|done].
  - rewrite forallb_app, Hf. done.
Qed.

Lemma back_after_Newline self :
  back_is_not_Newline
    (if back_is_not_Newline self then emplace_back token_type.Newline self
     else self) = false.
Proof.
  destruct (back_is_not_Newline self) eqn:E; [|done].
  unfold back_is_not_Newline, emplace_back; simpl. by rewrite last_snoc.
Qed.

(** The tokens [ParseIndent] appends: nothing, [Indent]s, or [Dedent]s, the
    latter only from a positive depth. *)
Lemma ParseIndent_appends istr self istr' self' :
  ParseIndent istr self = Normal (istr', self') ->
  0 <= global_indent_counter_ self ->
  exists k,
    tokens_ self' = tokens_ self ++ repeat token_type.Indent k
    \/ (tokens_ self' = tokens_ self ++ repeat token_type.Dedent k
        /\ 0 < global_indent_counter_ self).
Proof.
  unfold ParseIndent. intros H Hg.
  destruct (peek istr) as [[c|] istr0];
    [|simplify_eq; exists 0%nat; left; simpl; by rewrite app_nil_r].
  destruct (ParseIndent_spaces _ _ _ _) as [[istr1 ch] sp] eqn:Esp.
  apply ParseIndent_spaces_count in Esp.
  match type of H with mbind _ ?m = _ =>
    destruct m as [[istr2 blank]| |]; simpl in H; try done end.
  destruct blank;
    [simplify_eq; exists 0%nat; left; simpl; by rewrite app_nil_r|].
  match type of H with (if ?b then _ else _) = _ => destruct b; [done|] end.
  injection H as <- <-. unfold SPACES_PER_INDENT.
  destruct (_ <? sp).
  - rewrite ParseIndent_emit_run by lia. simpl. eauto.
  - destruct (Z.ltb_spec sp (global_indent_counter_ self * 2)).
    + rewrite ParseIndent_emit_run by lia. simpl. eexists. right. split; [done|lia].
    + exists 0%nat; left; simpl; by rewrite app_nil_r.
Qed.

Lemma Placed_ParseIndent istr self istr' self' :
  ParseIndent istr self = Normal (istr', self') ->
  back_is_not_Newline self = false -> Inv self -> Placed self -> Placed self'.
Proof.
  intros H Hb HI [Hp Hf].
  destruct (ParseIndent_appends _ _ _ _ H (Inv_nonneg _ HI)) as [k [Hk|[Hk Hg]]];
    unfold Placed; rewrite Hk, placed_app, forallb_app, Hp, Hf,
                     forallb_repeat by done; simpl; split; try done.
  - apply placed_repeat_Indent.
    apply back_is_not_Newline_false in Hb as [->|[pre ->]]; [done|].
    by rewrite last_or_snoc.
  - apply placed_repeat_Dedent.
    apply back_is_not_Newline_false in Hb as [Hnil|[pre ->]].
    + destruct HI as [Hr _]. rewrite Hnil in Hr. simpl in Hr. injection Hr as Hr. lia.
    + by rewrite last_or_snoc.
Qed.

Lemma Placed_ParseNewLine istr self istr' self' :
  ParseNewLine istr self = Normal (istr', self') ->
  Inv self -> Placed self -> Placed self'.
Proof.
  unfold ParseNewLine. intros H HI HP.
  destruct (peek istr) as [p istr0]. destruct (peeked_is p NL); [|by simplify_eq].
  eapply Placed_ParseIndent; [exact H|apply back_after_Newline| |].
  - destruct (back_is_not_Newline self); [|done].
    eapply Inv_adds_plain; [|done]. by apply adds_plain_one.
  - destruct (back_is_not_Newline self) eqn:E; [|done]. by apply Placed_Newline.
Qed.

Lemma Placed_round istr self istr' self' :
  ParseInputStream_round istr self = Normal (istr', self') ->
  Inv self -> Placed self -> Placed self'.
Proof.
  unfold ParseInputStream_round. intros H HI HP.
  destruct (ParseString istr self) as [[i1 s1]| |] eqn:E1; simpl in H; try done.
  destruct (ParseKeywords i1 s1) as [[i2 s2]| |] eqn:E2; simpl in H; try done.
  destruct (ParseChars i2 s2) as [[i3 s3]| |] eqn:E3; simpl in H; try done.
  destruct (ParseNumbers i3 s3) as [[i4 s4]| |] eqn:E4; simpl in H; try done.
  eapply Placed_ParseNewLine; [exact H| |].
  - apply ParseString_tokens in E1. apply ParseKeywords_tokens in E2.
    apply ParseChars_tokens in E3. apply ParseNumbers_tokens in E4.
    eapply Inv_adds_plain; [|exact HI]. eauto using adds_plain_trans.
  - apply ParseString_emits in E1. apply ParseKeywords_emits in E2.
    apply ParseChars_emits in E3. apply ParseNumbers_emits in E4.
    eauto using Placed_emits.
Qed.

Lemma Placed_loop fuel : forall istr self istr' self',
  ParseInputStream_loop fuel istr self = Some (Normal (istr', self')) ->
  Inv self -> Placed self -> Placed self'.
Proof.
  induction fuel as [|fuel IH]; intros istr self istr' self'; simpl;
    destruct (to_bool istr); try done; try (by intros; simplify_eq).
  destruct (ParseInputStream_round istr self) as [[i1 s1]| |] eqn:E; try done.
  intros H HI HP. eapply IH; [exact H| |].
  - eauto using ParseInputStream_round_Inv.
  - eauto using Placed_round.
Qed.

Lemma Placed_finish self :
  Inv self -> Placed self -> Placed (ParseInputStream_finish self).
Proof.
  intros HI HP. unfold ParseInputStream_finish.
  set (s1 := if back_is_not_Newline self
             then emplace_back token_type.Newline self else self).
  assert (Inv s1) as HI1.
  { unfold s1. destruct (back_is_not_Newline self); [|done].
    eapply Inv_adds_plain; [|done]. by apply adds_plain_one. }
  assert (Placed s1) as [Hp Hf].
  { unfold s1. destruct (back_is_not_Newline self) eqn:E; [|done].
    by apply Placed_Newline. }
  pose proof (back_after_Newline self) as Hb. fold s1 in Hb.
  pose proof (Inv_nonneg _ HI1) as Hg.
  rewrite ParseInputStream_dedent_run by lia.
  unfold Placed. simpl.
  rewrite !placed_app, !forallb_app, Hp, Hf, forallb_repeat by done. simpl.
  split; [|done]. rewrite andb_true_r.
  destruct (Z.to_nat (global_indent_counter_ s1)) as [|k] eqn:Ek; [done|].
  apply placed_repeat_Dedent.
  apply back_is_not_Newline_false in Hb as [Hnil|[pre ->]].
  - destruct HI1 as [Hr _]. rewrite Hnil in Hr. simpl in Hr. injection Hr as Hr. lia.
  - by rewrite last_or_snoc.
Qed.

Lemma Lexer_ctor_Placed fuel input self :
  Lexer_ctor fuel input = Some (Normal self) -> Placed self.
Proof.
  unfold Lexer_ctor, ParseInputStream. intros H.
  destruct (ParseInputStream_loop _ _ _) as [[[istr self0]| |]|] eqn:E;
    simpl in H; try done.
  injection H as <-.
  apply Placed_finish.
  - eapply ParseInputStream_loop_Inv; [exact E|apply Inv_initial].
  - eapply Placed_loop; [exact E|apply Inv_initial|done].
Qed.

Lemma placed_lookup ts : forall prev i t u,
  placed prev ts = true -> ts !! i = Some t -> ts !! S i = Some u ->
  may_follow (Some t) u = true.
Proof.
  induction ts as [|a ts IH]; intros prev i t u; [done|].
  simpl. intros [Ha Hts]%andb_true_iff.
  destruct i as [|i]; simpl.
  - intros [= ->] Hu. destruct ts as [|b ts]; [done|].
    simpl in Hu. injection Hu as ->. simpl in Hts.
    by apply andb_true_iff in Hts as [? _].
  - intros Ht Hu. by eapply IH.
Qed.

(** X1: the stream of a constructed lexer never has two [Newline]s in a
    row, and does not begin with a [Newline]. *)
Theorem no_two_Newlines_in_a_row fuel input self :
  Lexer_ctor fuel input = Some (Normal self) ->
  tokens_ self !! 0%nat <> Some token_type.Newline
  /\ forall i,
       tokens_ self !! i = Some token_type.Newline ->
       tokens_ self !! S i <> Some token_type.Newline.
Proof.
  intros [Hp _]%Lexer_ctor_Placed. split.
  - destruct (tokens_ self) as [|t ts]; [done|]. simpl in *.
    intros [= ->]. done.
  - intros i Hi Hn. by pose proof (placed_lookup _ _ _ _ _ Hp Hi Hn).
Qed.

Lemma no_two_Newlines_in_a_row_witness :
  Lexer_ctor 10 (lines ["x"; ""; "  y"]) = Some (Normal lexer_x_y)
  /\ tokens_ lexer_x_y !! 0%nat <> Some token_type.Newline.
Proof.
  assert (Lexer_ctor 10 (lines ["x"; ""; "  y"]) = Some (Normal lexer_x_y)) as H
    by (vm_compute; reflexivity).
  split; [exact H|].
  exact (proj1 (no_two_Newlines_in_a_row _ _ _ H)).
Defined.

(** X2: in the stream of a constructed lexer an [Indent] comes first or
    right after a [Newline] or another [Indent], and a [Dedent] comes right
    after a [Newline] or another [Dedent], never first. *)
Theorem Indent_Dedent_after_Newline fuel input self :
  Lexer_ctor fuel input = Some (Normal self) ->
  tokens_ self !! 0%nat <> Some token_type.Dedent
  /\ forall i t,
       tokens_ self !! i = Some t ->
       (tokens_ self !! S i = Some token_type.Indent ->
        t = token_type.Newline \/ t = token_type.Indent)
       /\ (tokens_ self !! S i = Some token_type.Dedent ->
           t = token_type.Newline \/ t = token_type.Dedent).
Proof.
  intros [Hp _]%Lexer_ctor_Placed. split.
  - destruct (tokens_ self) as [|t ts]; [done|]. simpl in *.
    intros [= ->]. done.
  - intros i t Hi. split; intros Hn;
      pose proof (placed_lookup _ _ _ _ _ Hp Hi Hn) as Hf;
      destruct t; simpl in Hf; try done; auto.
Qed.

Lemma Indent_Dedent_after_Newline_witness :
  Lexer_ctor 10 (lines ["x"; "  y"]) = Some (Normal lexer_x_y)
  /\ tokens_ lexer_x_y !! 0%nat <> Some token_type.Dedent.
Proof.
  assert (Lexer_ctor 10 (lines ["x"; "  y"]) = Some (Normal lexer_x_y)) as H
    by (vm_compute; reflexivity).
  split; [exact H|].
  exact (proj1 (Indent_Dedent_after_Newline _ _ _ H)).
Defined.

(** X3: every token of a constructed lexer has a well-formed payload: a
    [Number] is between 0 and [INT_MAX], an [Id] is not a reserved word, a
    [Char] is a punctuation character other than the comment sign. *)
Theorem payloads_well_formed fuel input self :
  Lexer_ctor fuel input = Some (Normal self) ->
  forall t, In t (tokens_ self) ->
    match t with
    | token_type.Number v => 0 <= v <= INT_MAX
    | token_type.Id w => keywords_map_ !! w = Datatypes.None
    | token_type.Char c => ispunct c = true /\ c <> HASH
    | _ => True
    end.
Proof.
  intros [_ Hf]%Lexer_ctor_Placed t Ht.
  rewrite forallb_forall in Hf. specialize (Hf t Ht).
  destruct t; simpl in Hf; try done.
  - apply andb_true_iff in Hf as [?%Z.leb_le ?%Z.leb_le]. done.
  - unfold is_reserved in Hf. by destruct (keywords_map_ !! value).
  - apply andb_true_iff in Hf as [? Hne]. split; [done|].
    intros ->. by rewrite Ascii.eqb_refl in Hne.
Qed.

Lemma payloads_well_formed_witness :
  Lexer_ctor 10 (lines ["x = 42"])
  = Some (Normal (mk_Lexer [token_type.Id "x"; token_type.Char "=";
                            token_type.Number 42; token_type.Newline;
                            token_type.Eof] 0 0))
  /\ 0 <= 42 <= INT_MAX.
Proof.
  assert (Lexer_ctor 10 (lines ["x = 42"])
          = Some (Normal (mk_Lexer [token_type.Id "x"; token_type.Char "=";
                            token_type.Number 42; token_type.Newline;
                            token_type.Eof] 0 0))) as H
    by (vm_compute; reflexivity).
  split; [exact H|].
  exact (payloads_well_formed _ _ _ H (token_type.Number 42)
           ltac:(simpl; auto)).
Defined.

(** ** Token comparison, the cursor and the checked accessors *)

(** X4: [operator==] on tokens never lets [std::bad_variant_access] escape
    and is structural equality: two tokens are equal exactly when they are
    the same alternative with the same payload; [operator!=] is its
    negation. *)
Theorem Token_eq_structural (lhs rhs : Token) :
  Token_eq lhs rhs = Some (bool_decide (lhs = rhs))
  /\ Token_ne lhs rhs = Some (negb (bool_decide (lhs = rhs))).
Proof.
  assert (Token_eq lhs rhs = Some (bool_decide (lhs = rhs))) as H.
  { destruct lhs, rhs; try (vm_compute; reflexivity);
      unfold Token_eq; simpl; f_equal.
    - destruct (Z.eqb_spec value value0) as [->|Hne].
      + by rewrite bool_decide_eq_true_2.
      + rewrite bool_decide_eq_false_2; [done|congruence].
    - destruct (String.eqb_spec value value0) as [->|Hne].
      + by rewrite bool_decide_eq_true_2.
      + rewrite bool_decide_eq_false_2; [done|congruence].
    - destruct (Ascii.eqb_spec value value0) as [->|Hne].
      + by rewrite bool_decide_eq_true_2.
      + rewrite bool_decide_eq_false_2; [done|congruence].
    - destruct (String.eqb_spec value value0) as [->|Hne].
      + by rewrite bool_decide_eq_true_2.
      + rewrite bool_decide_eq_false_2; [done|congruence]. }
  split; [done|]. unfold Token_ne. by rewrite H.
Qed.

Lemma NextToken_tokens self : tokens_ (snd (NextToken self)) = tokens_ self.
Proof. unfold NextToken. by destruct (Nat.eqb _ _). Qed.

Lemma advance_tokens k self : tokens_ (advance k self) = tokens_ self.
Proof.
  induction k as [|k IH]; [done|].
  unfold advance in *. simpl. by rewrite NextToken_tokens.
Qed.

Lemma advance_cursor k self :
  (current_token_it_ self < length (tokens_ self))%nat ->
  current_token_it_ (advance k self)
  = Nat.min (current_token_it_ self + k) (length (tokens_ self) - 1).
Proof.
  intros Hlt. induction k as [|k IH]; [simpl; lia|].
  change (advance (S k) self) with (snd (NextToken (advance k self))).
  unfold NextToken. rewrite advance_tokens.
  destruct (Nat.eqb_spec (current_token_it_ (advance k self) + 1)
              (length (tokens_ self))); simpl; lia.
Qed.

Lemma Lexer_ctor_cursor fuel input self :
  Lexer_ctor fuel input = Some (Normal self) -> current_token_it_ self = 0%nat.
Proof. by intros (self0 & _ & ->)%Lexer_ctor_finish. Qed.

(** X5: after construction the cursor is on the first token, and after [k]
    calls of [NextToken] it is on token [min k (n - 1)] of the [n] tokens:
    [CurrentToken] always finds a token there, and from [k = n - 1] on that
    token is [Eof]. *)
Theorem CurrentToken_after_advance fuel input self k :
  Lexer_ctor fuel input = Some (Normal self) ->
  let n := length (tokens_ self) in
  exists t,
    CurrentToken (advance k self) = Normal t
    /\ tokens_ self !! Nat.min k (n - 1) = Some t
    /\ ((n - 1 <= k)%nat -> t = token_type.Eof).
Proof.
  intros H. pose proof (constructed_ctor _ _ _ H) as Hc.
  apply constructed_cursor in Hc as (pre & Hts & _).
  apply Lexer_ctor_cursor in H as Hcur. cbv zeta.
  assert (length (tokens_ self) = S (length pre)) as Hlen
    by (rewrite Hts, length_app; simpl; lia).
  destruct (lookup_lt_is_Some_2 (tokens_ self)
              (Nat.min k (length (tokens_ self) - 1))) as [t Ht]; [lia|].
  exists t. split; [|split; [done|]].
  - unfold CurrentToken, deref.
    rewrite advance_tokens, advance_cursor by lia.
    rewrite Hcur, Nat.add_0_l. by rewrite Ht.
  - intros Hk. rewrite Nat.min_r in Ht by lia.
    rewrite Hlen in Ht. rewrite Hts in Ht.
    replace (S (length pre) - 1)%nat with (length pre + 0)%nat in Ht by lia.
    rewrite lookup_app_r in Ht by lia.
    replace (length pre + 0 - length pre)%nat with 0%nat in Ht by lia.
    by injection Ht as <-.
Qed.

Lemma CurrentToken_after_advance_witness :
  Lexer_ctor 10 (lines ["x"; "  y"]) = Some (Normal lexer_x_y)
  /\ exists t, CurrentToken (advance 100 lexer_x_y) = Normal t
               /\ t = token_type.Eof.
Proof.
  assert (Lexer_ctor 10 (lines ["x"; "  y"]) = Some (Normal lexer_x_y)) as H
    by (vm_compute; reflexivity).
  split; [exact H|].
  destruct (CurrentToken_after_advance _ _ _ 100%nat H) as (t & H1 & _ & H3).
  exists t. split; [exact H1|]. apply H3. simpl. lia.
Defined.

Lemma constructed_CurrentToken self :
  constructed self -> exists t, CurrentToken self = Normal t.
Proof.
  intros (pre & Hts & Hcur)%constructed_cursor.
  destruct (lookup_lt_is_Some_2 (tokens_ self) (current_token_it_ self))
    as [t Ht]; [rewrite Hts, length_app; simpl; lia|].
  exists t. unfold CurrentToken, deref. by rewrite Ht.
Qed.

(** X6: on a constructed lexer the checked accessors never step outside
    the token vector and fail with [LexerError] only: [Expect<T>()] returns
    the token under the cursor exactly when it holds a [T], and
    [Expect<T>(value)] succeeds exactly when that token equals
    [T{value}]. *)
Theorem Expect_checks_current self T other_token :
  constructed self ->
  exists t,
    CurrentToken self = Normal t
    /\ Expect T self
       = (if Nat.eqb (index t) T then Normal t
          else Throws (LexerError "Token::Expect() method has failed."))
    /\ Expect_value other_token self
       = Some (if bool_decide (t = other_token) then Normal tt
               else Throws (LexerError "Token::Expect(value) method has failed.")).
Proof.
  intros [t Ht]%constructed_CurrentToken. exists t.
  split; [done|]. unfold Expect, Expect_value.
  unfold CurrentToken in Ht. rewrite Ht. simpl. split.
  - destruct (Nat.eqb (index t) T); [|done]. by unfold CurrentToken.
  - destruct (Token_eq_structural t other_token) as [_ ->]. simpl.
    by destruct (bool_decide (t = other_token)).
Qed.

Lemma Expect_checks_current_witness :
  constructed lexer_x_at_end
  /\ Expect 23 lexer_x_at_end = Normal token_type.Eof
  /\ Expect 1 lexer_x_at_end
     = Throws (LexerError "Token::Expect() method has failed.").
Proof.
  assert (constructed lexer_x_at_end) as H.
  { change lexer_x_at_end with
      (snd (NextToken (snd (NextToken
         (mk_Lexer [token_type.Id "x"; token_type.Newline; token_type.Eof] 0 0))))).
    do 2 apply constructed_NextToken.
    apply (constructed_ctor 10 (lines ["x"])). vm_compute; reflexivity. }
  split; [exact H|].
  destruct (Expect_checks_current lexer_x_at_end 23 token_type.Eof H)
    as (t & Ht & H1 & _).
  destruct (Expect_checks_current lexer_x_at_end 1 token_type.Eof H)
    as (t' & Ht' & H1' & _).
  injection Ht as <-. injection Ht' as <-.
  exact (conj H1 H1').
Defined.

Lemma NextToken_on_last self :
  constructed self ->
  (current_token_it_ self + 1 = length (tokens_ self))%nat ->
  tokens_ self !! current_token_it_ self = Some token_type.Eof
  /\ NextToken self = (Normal token_type.Eof, self).
Proof.
  intros (pre & Hts & Hcur)%constructed_cursor Hend.
  assert (tokens_ self !! current_token_it_ self = Some token_type.Eof) as Ht.
  { rewrite Hts, length_app in Hend. simpl in Hend.
    rewrite Hts. replace (current_token_it_ self) with (length pre + 0)%nat by lia.
    rewrite lookup_app_r by lia.
    by replace (length pre + 0 - length pre)%nat with 0%nat by lia. }
  split; [done|].
  unfold NextToken. rewrite (proj2 (Nat.eqb_eq _ _) Hend).
  unfold deref. by rewrite Ht.
Qed.

(** X7: with the cursor on the last token, [ExpectNext<T>()] leaves the
    lexer as it is and checks the final [Eof] again: it succeeds for
    [T = Eof] and throws [LexerError] for every other [T]. *)
Theorem ExpectNext_at_end self T :
  constructed self ->
  (current_token_it_ self + 1 = length (tokens_ self))%nat ->
  ExpectNext T self
  = (if Nat.eqb T 23 then Normal token_type.Eof
     else Throws (LexerError "Token::Expect() method has failed."), self).
Proof.
  intros Hc Hend.
  destruct (NextToken_on_last self Hc Hend) as (Ht & HN).
  unfold ExpectNext. rewrite HN. simpl. unfold Expect, CurrentToken, deref.
  rewrite Ht. simpl.
  destruct T as [|T]; [done|]. do 22 (destruct T as [|T]; [done|]).
  by destruct T.
Qed.

Lemma ExpectNext_at_end_witness :
  constructed lexer_x_at_end
  /\ ExpectNext 1 lexer_x_at_end
     = (Throws (LexerError "Token::Expect() method has failed."), lexer_x_at_end).
Proof.
  assert (constructed lexer_x_at_end) as H.
  { change lexer_x_at_end with
      (snd (NextToken (snd (NextToken
         (mk_Lexer [token_type.Id "x"; token_type.Newline; token_type.Eof] 0 0))))).
    do 2 apply constructed_NextToken.
    apply (constructed_ctor 10 (lines ["x"])). vm_compute; reflexivity. }
  split; [exact H|].
  exact (ExpectNext_at_end lexer_x_at_end 1 H eq_refl).
Defined.

(** ** What single tokens are read from *)

Lemma ParseNumbers_digits_run ds : forall n l rest,
  forallb isdigit ds = true -> head_is isdigit rest = false ->
  (length (ds ++ rest) <= n)%nat ->
  ParseNumbers_digits n (from_string (ds ++ rest)) (String.string_of_list_ascii l)
  = (stopped_at rest, String.string_of_list_ascii (l ++ ds)).
Proof.
  induction ds as [|d ds IH]; intros n l rest Hds Hrest Hn.
  - rewrite app_nil_r. destruct rest as [|c r]; simpl in *.
    + by destruct n.
    + destruct n; cbn; by rewrite Hrest.
  - destruct n as [|n]; [simpl in Hn; lia|].
    simpl in Hds. apply andb_true_iff in Hds as [Hd Hds].
    cbn [ParseNumbers_digits get from_string good buf eofbit failbit negb andb app].
    rewrite Hd, push_back_list.
    change (mk_istream ?b false false) with (from_string b).
    rewrite IH; [|done|done|simpl in Hn; lia].
    by rewrite <- app_assoc.
Qed.

(** X8: a run of decimal digits that ends at a character that is no digit,
    or at the end of the stream, is read whole; it becomes one [Number]
    token with the decimal value of the run when that value fits [int], and
    makes [ParseNumbers] throw [std::out_of_range] (not [LexerError]) when it
    does not. *)
Theorem ParseNumbers_reads_number ds rest self :
  ds <> [] -> forallb isdigit ds = true -> head_is isdigit rest = false ->
  let v := decimal 0 (String.string_of_list_ascii ds) in
  ParseNumbers (from_string (ds ++ rest)) self
  = if v <=? INT_MAX
    then Normal (stopped_at rest, emplace_back (token_type.Number v) self)
    else Throws (out_of_range "stoi").
Proof.
  intros Hne Hds Hrest. cbv zeta.
  destruct ds as [|d ds]; [done|]. unfold ParseNumbers.
  cbn [peek from_string good buf eofbit failbit negb andb app].
  pose proof Hds as Hds'. simpl in Hds'.
  apply andb_true_iff in Hds' as [Hd _]. rewrite Hd.
  change (mk_istream ?b false false) with (from_string b).
  change EmptyString with (String.string_of_list_ascii []).
  change (d :: ds ++ rest) with ((d :: ds) ++ rest).
  rewrite (ParseNumbers_digits_run (d :: ds)); [|done|done|done].
  rewrite app_nil_l. unfold stoi.
  by destruct (_ <=? INT_MAX).
Qed.

Lemma ParseNumbers_reads_number_witness :
  ParseNumbers (from_string (bytes "2147483648;")) (mk_Lexer [] 0 0)
  = Throws (out_of_range "stoi").
Proof.
  exact (ParseNumbers_reads_number (bytes "2147483648") (bytes ";")
           (mk_Lexer [] 0 0) ltac:(discriminate) eq_refl eq_refl).
Defined.

Lemma ParseKeywords_word_run w : forall n l rest,
  forallb is_word_char w = true -> head_is is_word_char rest = false ->
  (length (w ++ rest) <= n)%nat ->
  ParseKeywords_word n (from_string (w ++ rest)) (String.string_of_list_ascii l)
  = (stopped_at rest, String.string_of_list_ascii (l ++ w)).
Proof.
  induction w as [|d w IH]; intros n l rest Hw Hrest Hn.
  - rewrite app_nil_r. destruct rest as [|c r]; simpl in *.
    + by destruct n.
    + unfold is_word_char in Hrest. destruct n; cbn; by rewrite Hrest.
  - destruct n as [|n]; [simpl in Hn; lia|].
    simpl in Hw. apply andb_true_iff in Hw as [Hd Hw].
    unfold is_word_char in Hd.
    cbn [ParseKeywords_word get from_string good buf eofbit failbit negb andb app].
    rewrite Hd, push_back_list.
    change (mk_istream ?b false false) with (from_string b).
    rewrite IH; [|done|done|simpl in Hn; lia].
    by rewrite <- app_assoc.
Qed.

(** X9: a word (a letter or underscore followed by letters, digits and
    underscores) that ends at a character that cannot continue it, or at
    the end of the stream, is read whole; it becomes the keyword token when
    it is one of the reserved words and [Id] with the word otherwise. *)
Theorem ParseKeywords_reads_word c w rest self :
  isalpha c || Ascii.eqb c "_" = true ->
  forallb is_word_char w = true -> head_is is_word_char rest = false ->
  let word := String.string_of_list_ascii (c :: w) in
  ParseKeywords (from_string (c :: w ++ rest)) self
  = Normal (stopped_at rest,
            emplace_back (match keywords_map_ !! word with
                          | Some t => t
                          | Datatypes.None => token_type.Id word
                          end) self).
Proof.
  intros Hc Hw Hrest. cbv zeta. unfold ParseKeywords.
  cbn [peek from_string good buf eofbit failbit negb andb app].
  rewrite Hc.
  change (mk_istream ?b false false) with (from_string b).
  change EmptyString with (String.string_of_list_ascii []).
  change (c :: w ++ rest) with ((c :: w) ++ rest).
  rewrite (ParseKeywords_word_run (c :: w) _ [] rest); [| |done|done].
  - rewrite app_nil_l. by destruct (keywords_map_ !! _).
  - simpl. rewrite Hw, andb_true_r. unfold is_word_char, isalnum.
    apply orb_true_iff in Hc as [->| ->]; [done|]. by rewrite orb_true_r.
Qed.

Lemma ParseKeywords_reads_word_witness :
  ParseKeywords (from_string (bytes "return_1 x")) (mk_Lexer [] 0 0)
  = Normal (from_string (bytes " x"),
            mk_Lexer [token_type.Id "return_1"] 0 0).
Proof.
  exact (ParseKeywords_reads_word "r" (bytes "eturn_1") (bytes " x")
           (mk_Lexer [] 0 0) eq_refl eq_refl eq_refl).
Defined.

Lemma escape_escape_char c :
  exists a b, (escape_char c = [BACKSLASH; a] /\ escape a = Normal c /\ b = true)
              \/ (escape_char c = [c] /\ Ascii.eqb c SQUOTE = false
                  /\ Ascii.eqb c DQUOTE = false /\ Ascii.eqb c BACKSLASH = false
                  /\ Ascii.eqb c NL = false /\ Ascii.eqb c CR = false /\ a = c
                  /\ b = false).
Proof.
  unfold escape_char.
  destruct (Ascii.eqb_spec c NL) as [->|?];
    [exists "n"%char, true; left; by vm_compute|].
  destruct (Ascii.eqb_spec c TAB) as [->|?];
    [exists "t"%char, true; left; by vm_compute|].
  destruct (Ascii.eqb_spec c CR) as [->|?];
    [exists "r"%char, true; left; by vm_compute|].
  destruct (Ascii.eqb_spec c DQUOTE) as [->|?];
    [exists DQUOTE, true; left; by vm_compute|].
  destruct (Ascii.eqb_spec c SQUOTE) as [->|?];
    [exists SQUOTE, true; left; by vm_compute|].
  destruct (Ascii.eqb_spec c BACKSLASH) as [->|?];
    [exists BACKSLASH, true; left; by vm_compute|].
  exists c, false. right. repeat split; try done; by apply Ascii.eqb_neq.
Qed.

Lemma ParseString_chars_run open_char p : forall n ch l rest,
  open_char = SQUOTE \/ open_char = DQUOTE ->
  (length (escaped p ++ open_char :: rest) <= n)%nat ->
  ParseString_chars n open_char (from_string (escaped p ++ open_char :: rest))
    ch (String.string_of_list_ascii l)
  = Normal (from_string rest, Some open_char, String.string_of_list_ascii (l ++ p)).
Proof.
  induction p as [|c p IH]; intros n ch l rest Hq Hn.
  - rewrite app_nil_r. simpl.
    destruct n; cbn; by rewrite Ascii.eqb_refl.
  - destruct n as [|n]; [simpl in Hn; rewrite length_app in Hn; simpl in Hn; lia|].
    assert (Ascii.eqb BACKSLASH open_char = false) as Hb
      by (by destruct Hq as [-> | ->]).
    change (escaped (c :: p)) with (escape_char c ++ escaped p) in *.
    destruct (escape_escape_char c) as (a & b & [(Hc & Ha & _)|(Hc & H1 & H2 & H3 & H4 & H5 & _)]);
      rewrite Hc in Hn |- *.
    + cbn [ParseString_chars get from_string good buf eofbit failbit negb andb app].
      rewrite Hb, Ascii.eqb_refl, Ha.
      cbn [mbind outcome_bind]. rewrite push_back_list.
      change (mk_istream ?b false false) with (from_string b).
      rewrite IH; [|done|simpl in Hn; lia].
      by rewrite <- app_assoc.
    + cbn [ParseString_chars get from_string good buf eofbit failbit negb andb app].
      assert (Ascii.eqb c open_char = false) as ->
        by (by destruct Hq as [-> | ->]).
      rewrite H3, H4, H5. cbn [orb]. rewrite push_back_list.
      change (mk_istream ?b false false) with (from_string b).
      rewrite IH; [|done|simpl in Hn; lia].
      by rewrite <- app_assoc.
Qed.

(** X10: every string can be written as a literal and is read back as it
    is: between two single or two double quotes, with newline, tab, carriage
    return, both quotes and the backslash written as escapes and every
    other character as itself, the text is read as one [String] token whose
    payload is the original string, and the stream is left right after the
    closing quote. *)
Theorem ParseString_reads_escaped open_char p rest self :
  open_char = SQUOTE \/ open_char = DQUOTE ->
  ParseString (from_string (open_char :: escaped p ++ open_char :: rest)) self
  = Normal (from_string rest,
            emplace_back (token_type.String (String.string_of_list_ascii p)) self).
Proof.
  intros Hq. unfold ParseString.
  cbn [peek get from_string good buf eofbit failbit negb andb].
  assert (Ascii.eqb open_char SQUOTE || Ascii.eqb open_char DQUOTE = true) as ->
    by (by destruct Hq as [-> | ->]).
  change (mk_istream ?b false false) with (from_string b).
  change EmptyString with (String.string_of_list_ascii []).
  rewrite ParseString_chars_run; [|done|done].
  cbn [mbind outcome_bind]. by rewrite Ascii.eqb_refl.
Qed.

Lemma ParseString_reads_escaped_witness :
  ParseString
    (from_string (SQUOTE :: escaped [ "a"%char; NL; SQUOTE ] ++ SQUOTE :: bytes " x"))
    (mk_Lexer [] 0 0)
  = Normal (from_string (bytes " x"),
            mk_Lexer [token_type.String
                        (String "a" (String NL (String SQUOTE EmptyString)))] 0 0).
Proof.
  exact (ParseString_reads_escaped SQUOTE [ "a"%char; NL; SQUOTE ] (bytes " x")
           (mk_Lexer [] 0 0) (or_introl eq_refl)).
Defined.

Lemma after_delim_found delim text rest :
  forallb (fun c => negb (Ascii.eqb c delim)) text = true ->
  after_delim delim (text ++ delim :: rest) = Some rest.
Proof.
  induction text as [|c text IH]; simpl.
  - by rewrite Ascii.eqb_refl.
  - intros [Hc Ht]%andb_true_iff. apply negb_true_iff in Hc. rewrite Hc. auto.
Qed.

Lemma after_delim_missing delim text :
  forallb (fun c => negb (Ascii.eqb c delim)) text = true ->
  after_delim delim text = Datatypes.None.
Proof.
  induction text as [|c text IH]; simpl; [done|].
  intros [Hc Ht]%andb_true_iff. apply negb_true_iff in Hc. rewrite Hc. auto.
Qed.

(** X11: a comment, from the comment sign to the end of the line, yields no
    token.  When a newline ends it, the newline is left in the stream for
    [ParseNewLine]; when the stream ends first, it is left at its end with
    eofbit set and failbit clear. *)
Theorem ParseChars_skips_comment text rest self :
  forallb (fun c => negb (Ascii.eqb c NL)) text = true ->
  ParseChars (from_string (HASH :: text ++ NL :: rest)) self
  = Normal (from_string (NL :: rest), self)
  /\ ParseChars (from_string (HASH :: text)) self
     = Normal ({| buf := []; eofbit := true; failbit := false |}, self).
Proof.
  intros Ht. unfold ParseChars, ParseComments.
  cbn [peek get putback from_string good buf eofbit failbit negb andb].
  change (ispunct HASH) with true. rewrite Ascii.eqb_refl.
  cbn [peek getline putback from_string good buf eofbit failbit negb andb
       peeked_is]. rewrite Ascii.eqb_refl.
  cbn [after_delim]. change (Ascii.eqb HASH NL) with false. cbn iota.
  rewrite after_delim_found, after_delim_missing by done.
  split; reflexivity.
Qed.

Lemma ParseChars_skips_comment_witness :
  ParseChars (from_string (HASH :: bytes " note" ++ NL :: bytes "x"))
    (mk_Lexer [] 0 0)
  = Normal (from_string (NL :: bytes "x"), mk_Lexer [] 0 0).
Proof.
  exact (proj1 (ParseChars_skips_comment (bytes " note") (bytes "x")
                  (mk_Lexer [] 0 0) eq_refl)).
Defined.

(** X12: a punctuation character other than the comment sign yields one
    token.  One of [= ! > <] directly followed by [=] yields the operator
    token of the pair and both characters are consumed; in every other case
    the character alone is consumed and yields [Char]. *)
Theorem ParseChars_operators c rest self :
  ispunct c = true -> c <> HASH ->
  match compound c, rest with
  | Some tok, next :: rest' =>
      if Ascii.eqb next "=" then
        ParseChars (from_string (c :: rest)) self
        = Normal (from_string rest', emplace_back tok self)
      else
        ParseChars (from_string (c :: rest)) self
        = Normal (from_string rest, emplace_back (token_type.Char c) self)
  | Some _, [] =>
      ParseChars (from_string [c]) self
      = Normal ({| buf := []; eofbit := true; failbit := false |},
                emplace_back (token_type.Char c) self)
  | Datatypes.None, _ =>
      ParseChars (from_string (c :: rest)) self
      = Normal (from_string rest, emplace_back (token_type.Char c) self)
  end.
Proof.
  intros Hp Hh. apply Ascii.eqb_neq in Hh.
  unfold compound, ParseChars, followed_by_eq.
  cbn [peek get from_string good buf eofbit failbit negb andb].
  rewrite Hp, Hh.
  destruct (Ascii.eqb_spec c "=") as [->|?].
  { destruct rest as [|next rest']; [reflexivity|].
    cbn [peek get from_string good buf eofbit failbit negb andb peeked_is snd].
    by destruct (Ascii.eqb next "="). }
  destruct (Ascii.eqb_spec c "!") as [->|?].
  { destruct rest as [|next rest']; [reflexivity|].
    cbn [peek get from_string good buf eofbit failbit negb andb peeked_is snd].
    by destruct (Ascii.eqb next "="). }
  destruct (Ascii.eqb_spec c ">") as [->|?].
  { destruct rest as [|next rest']; [reflexivity|].
    cbn [peek get from_string good buf eofbit failbit negb andb peeked_is snd].
    by destruct (Ascii.eqb next "="). }
  destruct (Ascii.eqb_spec c "<") as [->|?].
  { destruct rest as [|next rest']; [reflexivity|].
    cbn [peek get from_string good buf eofbit failbit negb andb peeked_is snd].
    by destruct (Ascii.eqb next "="). }
  reflexivity.
Qed.

Lemma ParseChars_operators_witness :
  ParseChars (from_string (bytes "<=1")) (mk_Lexer [] 0 0)
  = Normal (from_string (bytes "1"), mk_Lexer [token_type.LessOrEq] 0 0).
Proof.
  exact (ParseChars_operators "<" (bytes "=1") (mk_Lexer [] 0 0) eq_refl
           ltac:(discriminate)).
Defined.

(** ** Termination of construction *)

Lemma shrinks_refl istr : shrinks istr istr.
Proof. split; [done|lia]. Qed.

Lemma shrinks_trans a b c : shrinks a b -> shrinks b c -> shrinks a c.
Proof. intros [H1 H2] [H3 H4]. split; [by etrans|lia]. Qed.

Lemma shrinks_less a b c :
  shrinks a b -> (remaining b < remaining a)%nat -> shrinks b c ->
  (remaining c < remaining a)%nat.
Proof. intros _ H [_ H']. lia. Qed.

Lemma peek_spec istr p istr' :
  peek istr = (p, istr') ->
  shrinks istr istr'
  /\ match p with
     | Some c => istr' = istr /\ good istr = true /\ exists r, buf istr = c :: r
     | Datatypes.None => good istr = true -> buf istr = []
     end.
Proof.
  unfold peek, shrinks, remaining, good. destruct istr as [b [] []]; simpl;
    try (intros [= <- <-]; simpl; repeat split; auto; lia).
  destruct b as [|c r]; intros [= <- <-]; simpl; repeat split; eauto; lia.
Qed.

Lemma get_spec istr p istr' :
  get istr = (p, istr') ->
  shrinks istr istr'
  /\ match p with
     | Some c => good istr = true /\ good istr' = true
                 /\ buf istr = c :: buf istr'
                 /\ (remaining istr' < remaining istr)%nat
                 /\ putback c istr' = istr
     | Datatypes.None => failbit istr' = true
     end.
Proof.
  unfold get, shrinks, remaining, putback. destruct istr as [b [] []]; simpl;
    try (intros [= <- <-]; simpl; repeat split; auto; lia).
  destruct b as [|c r]; intros [= <- <-]; simpl; repeat split; auto; try lia;
    try apply suffix_nil; by apply suffix_cons_r.
Qed.

Lemma failed_shrinks istr istr' :
  failbit istr' = true -> suffix (buf istr') (buf istr) -> shrinks istr istr'.
Proof. intros Hf Hs. split; [done|]. unfold remaining. rewrite Hf. lia. Qed.

Lemma putback_failed c istr : failbit istr = true -> shrinks istr (putback c istr).
Proof.
  intros Hf. unfold putback, good. simpl. rewrite Hf. simpl.
  apply failed_shrinks; done.
Qed.

Lemma TrimSpaces_loop_shrinks n : forall istr, shrinks istr (TrimSpaces_loop n istr).
Proof.
  induction n as [|n IH]; intros istr; simpl;
    destruct (peek istr) as [p istr0] eqn:Ep;
    apply peek_spec in Ep as [Hs Hp];
    destruct (peeked_is p SPACE); try done;
    destruct (get istr0) as [q istr1] eqn:Eg;
    apply get_spec in Eg as [Hg _]; simpl;
    eauto using shrinks_trans.
Qed.

Lemma ParseString_chars_shrinks n open_char : forall istr ch result istr' ch' result',
  ParseString_chars n open_char istr ch result = Normal (istr', ch', result') ->
  shrinks istr istr'.
Proof.
  induction n as [|n IH]; intros istr ch result istr' ch' result'; simpl;
    destruct (get istr) as [[c|] istr1] eqn:Eg;
    apply get_spec in Eg as [Hs _];
    try (destruct (Ascii.eqb c open_char));
    try (intros [= <- <- <-]; done).
  destruct (Ascii.eqb c BACKSLASH).
  - destruct (get istr1) as [[e|] istr2] eqn:Eg2; [|done].
    apply get_spec in Eg2 as [Hs2 _].
    destruct (escape e); simpl; try done.
    intros H%IH. eauto using shrinks_trans.
  - destruct (_ || _); [done|]. intros H%IH. eauto using shrinks_trans.
Qed.

Lemma ParseKeywords_word_shrinks n : forall istr keyword istr' keyword',
  ParseKeywords_word n istr keyword = (istr', keyword') -> shrinks istr istr'.
Proof.
  induction n as [|n IH]; intros istr keyword istr' keyword'; simpl;
    destruct (get istr) as [[c|] istr1] eqn:Eg;
    apply get_spec in Eg as [Hs Hc];
    try (destruct (isalnum c || Ascii.eqb c "_"));
    intros H; try (apply IH in H); simplify_eq;
    eauto using shrinks_trans;
    destruct Hc as (_ & _ & _ & _ & ->); apply shrinks_refl.
Qed.

Lemma ParseNumbers_digits_shrinks n : forall istr result istr' result',
  ParseNumbers_digits n istr result = (istr', result') -> shrinks istr istr'.
Proof.
  induction n as [|n IH]; intros istr result istr' result'; simpl;
    destruct (get istr) as [[c|] istr1] eqn:Eg;
    apply get_spec in Eg as [Hs Hc];
    try (destruct (isdigit c));
    intros H; try (apply IH in H); simplify_eq;
    eauto using shrinks_trans;
    destruct Hc as (_ & _ & _ & _ & ->); apply shrinks_refl.
Qed.

(** After the loop of [ParseIndent] and its [putback], the stream has
    shrunk. *)
Lemma ParseIndent_spaces_shrinks n : forall istr ch k istr' ch' k',
  ParseIndent_spaces n istr ch k = (istr', ch', k') ->
  shrinks istr istr'
  /\ (failbit istr' = true
      \/ exists c, ch' = Some c /\ shrinks istr (putback c istr')).
Proof.
  induction n as [|n IH]; intros istr ch k istr' ch' k'; simpl;
    destruct (get istr) as [[c|] istr1] eqn:Eg;
    apply get_spec in Eg as [Hs Hc];
    try (destruct (Ascii.eqb c SPACE));
    intros H; try (apply IH in H as [H1 H2]); simplify_eq.
  - split; [done|]. right. exists c. split; [done|].
    destruct Hc as (_ & _ & _ & _ & ->). apply shrinks_refl.
  - split; [done|]. right. exists c. split; [done|].
    destruct Hc as (_ & _ & _ & _ & ->). apply shrinks_refl.
  - auto.
  - split; [eauto using shrinks_trans|].
    destruct H2 as [?|(c' & ? & ?)]; [by left|].
    right. exists c'. eauto using shrinks_trans.
  - split; [done|]. right. exists c. split; [done|].
    destruct Hc as (_ & _ & _ & _ & ->). apply shrinks_refl.
  - auto.
Qed.

Lemma ParseIndent_shrinks istr self istr' self' :
  ParseIndent istr self = Normal (istr', self') -> shrinks istr istr'.
Proof.
  unfold ParseIndent. intros H.
  destruct (peek istr) as [[c|] istr0] eqn:Ep; apply peek_spec in Ep as [Hs Hp];
    [|by simplify_eq].
  destruct (ParseIndent_spaces _ _ _ _) as [[istr1 ch] sp] eqn:Esp.
  apply ParseIndent_spaces_shrinks in Esp as [Hs1 Hs2].
  assert (forall blank istr2,
            (if negb (rdstate_is_eofbit istr1)
             then match ch with
                  | Some c0 => Normal (putback c0 istr1, Ascii.eqb c0 NL)
                  | Datatypes.None => Undefined
                  end
             else Normal (istr1, false)) = Normal (istr2, blank) ->
            shrinks istr0 istr2) as Hput.
  { intros blank istr2. destruct (negb _); [|by intros [= <- <-]].
    destruct Hs2 as [Hf|(c0 & -> & Hc0)]; [|by intros [= <- <-]].
    destruct ch; [|done]. intros [= <- <-].
    eapply shrinks_trans; [exact Hs1|]. by apply putback_failed. }
  match type of H with mbind _ ?m = _ =>
    destruct m as [[istr2 blank]| |] eqn:Em; simpl in H; try done end.
  clear Em. pose proof (Hput _ _ eq_refl) as Em.
  destruct blank; [simplify_eq; eauto using shrinks_trans|].
  match type of H with (if ?b then _ else _) = _ => destruct b; [done|] end.
  injection H as <- <-. eauto using shrinks_trans.
Qed.

Lemma ParseString_shrinks istr self istr' self' :
  ParseString istr self = Normal (istr', self') -> shrinks istr istr'.
Proof.
  unfold ParseString. intros H.
  destruct (peek istr) as [[c|] istr0] eqn:Ep; apply peek_spec in Ep as [Hs Hp];
    [|by simplify_eq].
  destruct (get istr0) as [[q|] istr1] eqn:Eg; [|done].
  apply get_spec in Eg as [Hg Hq].
  destruct (_ || _).
  - destruct (ParseString_chars _ _ _ _ _) as [[[istr2 ch] result]| |] eqn:El;
      simpl in H; try done.
    apply ParseString_chars_shrinks in El.
    destruct ch as [c'|]; [|done]. destruct (Ascii.eqb q c'); [|done].
    injection H as <- <-. eauto using shrinks_trans.
  - injection H as <- <-. destruct Hq as (_ & _ & _ & _ & ->). done.
Qed.

Lemma ParseKeywords_shrinks istr self istr' self' :
  ParseKeywords istr self = Normal (istr', self') -> shrinks istr istr'.
Proof.
  unfold ParseKeywords. intros H.
  destruct (peek istr) as [[c|] istr0] eqn:Ep; apply peek_spec in Ep as [Hs Hp];
    [|by simplify_eq].
  destruct (peek istr0) as [[ch|] istr1] eqn:Ep1;
    apply peek_spec in Ep1 as [Hs1 Hp1];
    [|simplify_eq; eauto using shrinks_trans].
  destruct (_ || _); [|simplify_eq; eauto using shrinks_trans].
  destruct (ParseKeywords_word _ _ _) as [istr2 keyword] eqn:El.
  apply ParseKeywords_word_shrinks in El.
  destruct (keywords_map_ !! keyword); simplify_eq; eauto using shrinks_trans.
Qed.

Lemma ParseNumbers_shrinks istr self istr' self' :
  ParseNumbers istr self = Normal (istr', self') -> shrinks istr istr'.
Proof.
  unfold ParseNumbers. intros H.
  destruct (peek istr) as [[c|] istr0] eqn:Ep; apply peek_spec in Ep as [Hs Hp];
    [|by simplify_eq].
  destruct (peek istr0) as [[ch|] istr1] eqn:Ep1;
    apply peek_spec in Ep1 as [Hs1 Hp1];
    [|simplify_eq; eauto using shrinks_trans].
  destruct (isdigit ch); [|simplify_eq; eauto using shrinks_trans].
  destruct (ParseNumbers_digits _ _ _) as [istr2 result] eqn:El.
  apply ParseNumbers_digits_shrinks in El.
  destruct (stoi result); simpl in H; simplify_eq. eauto using shrinks_trans.
Qed.

Lemma after_delim_suffix delim l r :
  after_delim delim l = Some r -> exists k, l = k ++ delim :: r.
Proof.
  induction l as [|c l IH]; simpl; [done|].
  destruct (Ascii.eqb_spec c delim) as [->|_].
  - intros [= ->]. by exists [].
  - intros (k & ->)%IH. by exists (c :: k).
Qed.

(** On a comment, [ParseComments] leaves strictly less. *)
Lemma ParseComments_shrinks istr :
  shrinks istr (ParseComments istr)
  /\ (good istr = true -> head_is (fun c => Ascii.eqb c HASH) (buf istr) = true ->
      (remaining (ParseComments istr) < remaining istr)%nat).
Proof.
  unfold ParseComments.
  destruct (peek istr) as [p istr0] eqn:Ep. pose proof Ep as Ep'.
  apply peek_spec in Ep as [Hs Hp].
  destruct istr as [b e f]. unfold peek in Ep'. simpl in *.
  destruct e, f; simpl in *; simplify_eq; simpl; try (split; [done|done]).
  destruct b as [|c b]; simplify_eq; simpl; [split; [done|done]|].
  destruct (Ascii.eqb_spec c HASH) as [->|Hne]; [|split; [done|done]].
  unfold getline. simpl. change (Ascii.eqb HASH NL) with false. cbn iota.
  destruct (after_delim NL b) as [r|] eqn:Ea.
  - apply after_delim_suffix in Ea as (k & ->).
    unfold putback, rdstate_is_eofbit, shrinks, remaining; simpl.
    rewrite length_app. simpl. repeat split; try lia.
    by exists (HASH :: k).
  - unfold rdstate_is_eofbit, shrinks, remaining; simpl.
    repeat split; try lia. apply suffix_nil.
Qed.

Lemma followed_by_eq_shrinks ch c0 istr b istr' :
  followed_by_eq ch c0 istr = (b, istr') -> shrinks istr istr'.
Proof.
  unfold followed_by_eq. destruct (Ascii.eqb ch c0); [|by intros [= _ <-]].
  destruct (peek istr) as [p istr0] eqn:Ep. apply peek_spec in Ep as [Hs _].
  by intros [= _ <-].
Qed.

Lemma snd_get_shrinks istr : shrinks istr (snd (get istr)).
Proof. destruct (get istr) as [p istr'] eqn:E. by apply get_spec in E as [? _]. Qed.

(** [ParseChars] leaves no more than it finds, and strictly less when the
    stream is good and begins with a punctuation character. *)
Lemma ParseChars_shrinks istr self istr' self' :
  ParseChars istr self = Normal (istr', self') ->
  shrinks istr istr'
  /\ (good istr = true -> head_is ispunct (buf istr) = true ->
      (remaining istr' < remaining istr)%nat).
Proof.
  unfold ParseChars. intros H.
  destruct (peek istr) as [[c|] istr0] eqn:Ep; apply peek_spec in Ep as [Hs Hp].
  2:{ simplify_eq. split; [done|]. intros Hg Hh.
      by rewrite (Hp Hg) in Hh. }
  destruct Hp as (-> & Hgood & r & Hbuf).
  destruct (get istr) as [[ch|] istr1] eqn:Eg; [|done].
  apply get_spec in Eg as (Hg & _ & _ & Hb & Hlt & Hput).
  rewrite Hbuf in Hb. injection Hb as <- ->.
  destruct (ispunct c) eqn:Epunct.
  - destruct (Ascii.eqb c HASH) eqn:Eh.
    + injection H as <- <-. rewrite Hput.
      destruct (ParseComments_shrinks istr) as [Hc1 Hc2].
      split; [done|]. intros _ _. apply Hc2; [done|].
      rewrite Hbuf. simpl. done.
    + assert (forall istr2, shrinks istr1 istr2 ->
                shrinks istr istr2 /\ (good istr = true ->
                  head_is ispunct (buf istr) = true ->
                  (remaining istr2 < remaining istr)%nat)) as Hdone.
      { intros istr2 [Hs2 Hr2]. split.
        - eapply shrinks_trans; [exact Hg|done].
        - intros _ _. lia. }
      destruct (followed_by_eq c "=" istr1) as [b1 i1] eqn:E1.
      apply followed_by_eq_shrinks in E1.
      destruct b1; [injection H as <- <-; apply Hdone;
                    eauto using shrinks_trans, snd_get_shrinks|].
      destruct (followed_by_eq c "!" i1) as [b2 i2] eqn:E2.
      apply followed_by_eq_shrinks in E2.
      destruct b2; [injection H as <- <-; apply Hdone;
                    eauto using shrinks_trans, snd_get_shrinks|].
      destruct (followed_by_eq c ">" i2) as [b3 i3] eqn:E3.
      apply followed_by_eq_shrinks in E3.
      destruct b3; [injection H as <- <-; apply Hdone;
                    eauto using shrinks_trans, snd_get_shrinks|].
      destruct (followed_by_eq c "<" i3) as [b4 i4] eqn:E4.
      apply followed_by_eq_shrinks in E4.
      destruct b4; injection H as <- <-; apply Hdone;
        eauto 6 using shrinks_trans, snd_get_shrinks.
  - injection H as <- <-. rewrite Hput. split; [apply shrinks_refl|].
    intros _. rewrite Hbuf. simpl. by rewrite Epunct.
Qed.

Lemma remaining_from_string l : remaining (from_string l) = (length l + 2)%nat.
Proof. done. Qed.

Lemma ParseString_head c r self istr' self' :
  ParseString (from_string (c :: r)) self = Normal (istr', self') ->
  if Ascii.eqb c SQUOTE || Ascii.eqb c DQUOTE
  then (remaining istr' < remaining (from_string (c :: r)))%nat
  else istr' = from_string (c :: r).
Proof.
  unfold ParseString.
  cbn [peek get from_string good buf eofbit failbit negb andb].
  destruct (_ || _).
  - destruct (ParseString_chars _ _ _ _ _) as [[[istr2 ch] result]| |] eqn:El;
      simpl; try done.
    apply ParseString_chars_shrinks in El as [_ Hr].
    destruct ch as [c'|]; [|done]. destruct (Ascii.eqb c c'); [|done].
    intros [= <- <-]. unfold remaining in *. simpl in *. lia.
  - by intros [= <- <-].
Qed.

Lemma ParseKeywords_head c r self istr' self' :
  ParseKeywords (from_string (c :: r)) self = Normal (istr', self') ->
  if isalpha c || Ascii.eqb c "_"
  then (remaining istr' < remaining (from_string (c :: r)))%nat
  else istr' = from_string (c :: r).
Proof.
  unfold ParseKeywords.
  cbn [peek from_string good buf eofbit failbit negb andb].
  destruct (isalpha c || Ascii.eqb c "_") eqn:Ec; [|by intros [= <- <-]].
  cbn [ParseKeywords_word length get from_string good buf eofbit failbit negb andb].
  assert (isalnum c || Ascii.eqb c "_" = true) as ->.
  { unfold isalnum. apply orb_true_iff in Ec as [->| ->]; [done|].
    by rewrite orb_true_r. }
  destruct (ParseKeywords_word _ _ _) as [istr2 keyword] eqn:El.
  apply ParseKeywords_word_shrinks in El as [_ Hr].
  intros H. assert (istr' = istr2) as -> by (by destruct (keywords_map_ !! _); simplify_eq).
  unfold remaining in *. simpl in *. lia.
Qed.

Lemma ParseChars_head c r self istr' self' :
  ParseChars (from_string (c :: r)) self = Normal (istr', self') ->
  if ispunct c
  then (remaining istr' < remaining (from_string (c :: r)))%nat
  else istr' = from_string (c :: r).
Proof.
  intros H. destruct (ispunct c) eqn:Ec.
  - apply ParseChars_shrinks in H as [_ H]. apply H; [done|]. simpl. done.
  - unfold ParseChars in H.
    cbn [peek get putback from_string good buf eofbit failbit negb andb] in H.
    rewrite Ec in H. by injection H as <- _.
Qed.

Lemma ParseNumbers_head c r self istr' self' :
  ParseNumbers (from_string (c :: r)) self = Normal (istr', self') ->
  if isdigit c
  then (remaining istr' < remaining (from_string (c :: r)))%nat
  else istr' = from_string (c :: r).
Proof.
  unfold ParseNumbers.
  cbn [peek from_string good buf eofbit failbit negb andb].
  destruct (isdigit c) eqn:Ec; [|by intros [= <- <-]].
  cbn [ParseNumbers_digits length get from_string good buf eofbit failbit negb andb].
  rewrite Ec.
  destruct (ParseNumbers_digits _ _ _) as [istr2 result] eqn:El.
  apply ParseNumbers_digits_shrinks in El as [_ Hr].
  destruct (stoi result); simpl; try done. intros [= <- <-].
  unfold remaining in *. simpl in *. lia.
Qed.

Lemma TrimSpaces_shrinks istr : shrinks istr (TrimSpaces istr).
Proof. apply TrimSpaces_loop_shrinks. Qed.

Lemma TrimSpaces_head c r :
  if Ascii.eqb c SPACE
  then (remaining (TrimSpaces (from_string (c :: r)))
        < remaining (from_string (c :: r)))%nat
  else TrimSpaces (from_string (c :: r)) = from_string (c :: r).
Proof.
  unfold TrimSpaces.
  cbn [TrimSpaces_loop length buf peek get from_string good eofbit failbit
       negb andb peeked_is snd].
  destruct (Ascii.eqb c SPACE); [|done].
  destruct (TrimSpaces_loop_shrinks (length r) (mk_istream r false false))
    as [_ Hr].
  unfold remaining in *. simpl in *. lia.
Qed.

Lemma ParseNewLine_shrinks istr self istr' self' :
  ParseNewLine istr self = Normal (istr', self') -> shrinks istr istr'.
Proof.
  unfold ParseNewLine.
  destruct (peek istr) as [p istr0] eqn:Ep. apply peek_spec in Ep as [Hs _].
  destruct (peeked_is p NL); [|by intros [= <- <-]].
  intros H%ParseIndent_shrinks.
  eauto using shrinks_trans, snd_get_shrinks.
Qed.

Lemma ParseNewLine_head r self istr' self' :
  ParseNewLine (from_string (NL :: r)) self = Normal (istr', self') ->
  (remaining istr' < remaining (from_string (NL :: r)))%nat.
Proof.
  unfold ParseNewLine.
  cbn [peek get from_string good buf eofbit failbit negb andb peeked_is snd].
  change (Ascii.eqb NL NL) with true. cbn iota.
  intros [_ H]%ParseIndent_shrinks. unfold remaining in *. simpl in *. lia.
Qed.

Lemma handled_classes c :
  handled c = true ->
  isalpha c || isdigit c || ispunct c || Ascii.eqb c SPACE || Ascii.eqb c NL = true.
Proof. destruct c as [[] [] [] [] [] [] [] []]; vm_compute; done. Qed.

Lemma good_from_string istr :
  good istr = true -> istr = from_string (buf istr).
Proof. destruct istr as [b [] []]; done. Qed.

(** A round of the main loop on a stream that has not failed and begins
    with a handled character leaves strictly less. *)
Lemma ParseInputStream_round_progress istr self istr' self' :
  to_bool istr = true ->
  forallb handled (buf istr) = true ->
  ParseInputStream_round istr self = Normal (istr', self') ->
  shrinks istr istr' /\ (remaining istr' < remaining istr)%nat.
Proof.
  intros Hb Hh H. unfold ParseInputStream_round in H.
  destruct (ParseString istr self) as [[i1 s1]| |] eqn:E1; simpl in H; try done.
  destruct (ParseKeywords i1 s1) as [[i2 s2]| |] eqn:E2; simpl in H; try done.
  destruct (ParseChars i2 s2) as [[i3 s3]| |] eqn:E3; simpl in H; try done.
  destruct (ParseNumbers i3 s3) as [[i4 s4]| |] eqn:E4; simpl in H; try done.
  pose proof (ParseString_shrinks _ _ _ _ E1) as M1.
  pose proof (ParseKeywords_shrinks _ _ _ _ E2) as M2.
  pose proof (proj1 (ParseChars_shrinks _ _ _ _ E3)) as M3.
  pose proof (ParseNumbers_shrinks _ _ _ _ E4) as M4.
  pose proof (TrimSpaces_shrinks i4) as M5.
  pose proof (ParseNewLine_shrinks _ _ _ _ H) as M6.
  split; [eauto 8 using shrinks_trans|].
  assert (remaining i1 <= remaining istr /\ remaining i2 <= remaining i1
          /\ remaining i3 <= remaining i2 /\ remaining i4 <= remaining i3
          /\ remaining (TrimSpaces i4) <= remaining i4
          /\ remaining istr' <= remaining (TrimSpaces i4))%nat as Hle
    by (repeat split; by (apply M1 || apply M2 || apply M3 || apply M4
                          || apply M5 || apply M6)).
  destruct (good istr) eqn:Hg.
  - rewrite (good_from_string _ Hg) in *. destruct (buf istr) as [|c r].
    + (* end of the characters: the first peek sets eofbit, the next failbit *)
      vm_compute in E1. injection E1 as <- <-.
      vm_compute in E2. injection E2 as <- <-.
      change (remaining (mk_istream [] true true)) with 0%nat in Hle.
      change (remaining (from_string [])) with 2%nat. lia.
    + simpl in Hh. apply andb_true_iff in Hh as [Hc _].
      apply handled_classes in Hc.
      apply ParseString_head in E1.
      destruct (Ascii.eqb c SQUOTE || Ascii.eqb c DQUOTE); [lia|]. subst i1.
      apply ParseKeywords_head in E2.
      destruct (isalpha c || Ascii.eqb c "_") eqn:Ea; [lia|]. subst i2.
      apply ParseChars_head in E3.
      destruct (ispunct c) eqn:Ep; [lia|]. subst i3.
      apply ParseNumbers_head in E4.
      destruct (isdigit c) eqn:Ed; [lia|]. subst i4.
      pose proof (TrimSpaces_head c r) as Ht.
      destruct (Ascii.eqb c SPACE) eqn:Es; [lia|]. rewrite Ht in H.
      apply orb_false_iff in Ea as [Ea _]. rewrite Ea in Hc.
      simpl in Hc. apply Ascii.eqb_eq in Hc as ->.
      by apply ParseNewLine_head in H.
  - (* eofbit alone: the first peek sets failbit *)
    assert (failbit i1 = true) as Hf1.
    { unfold ParseString, peek in E1. rewrite Hg in E1. by injection E1 as <- _. }
    assert (remaining i1 = 0%nat) as R1
      by (unfold remaining; by rewrite Hf1).
    assert (1 <= remaining istr)%nat as R0.
    { unfold to_bool in Hb. apply negb_true_iff in Hb.
      unfold remaining. rewrite Hb. destruct (eofbit istr); lia. }
    lia.
Qed.

Lemma ParseInputStream_loop_terminates fuel : forall istr self,
  forallb handled (buf istr) = true ->
  (remaining istr <= fuel)%nat ->
  exists r, ParseInputStream_loop fuel istr self = Some r.
Proof.
  induction fuel as [|fuel IH]; intros istr self Hh Hr; simpl.
  - destruct (to_bool istr) eqn:Hb; [|eauto].
    unfold to_bool in Hb. apply negb_true_iff in Hb.
    unfold remaining in Hr. rewrite Hb in Hr. destruct (eofbit istr); lia.
  - destruct (to_bool istr) eqn:Hb; [|eauto].
    destruct (ParseInputStream_round istr self) as [[i1 s1]| |] eqn:E; eauto.
    apply ParseInputStream_round_progress in E as [[[k Hk] _] Hlt]; [|done|done].
    apply IH; [|lia].
    rewrite Hk, forallb_app in Hh. by apply andb_true_iff in Hh as [_ ?].
Qed.

(** *** Where the outcome can be undefined *)

Lemma ParseString_chars_defined n open_char : forall istr ch result,
  ParseString_chars n open_char istr ch result <> Undefined.
Proof.
  induction n as [|n IH]; intros istr ch result; simpl;
    destruct (get istr) as [[c|] istr1]; try done;
    destruct (Ascii.eqb c open_char); try done.
  destruct (Ascii.eqb c BACKSLASH).
  - destruct (get istr1) as [[e|] istr2]; [|done].
    unfold escape.
    repeat match goal with
    | |- context [if ?b then _ else _] => destruct b; simpl; try apply IH
    end. done.
  - destruct (_ || _); [done|]; apply IH.
Qed.

(** The loop of [ParseString] leaves [ch] unwritten only when its first
    [get] fails. *)
Lemma ParseString_chars_unwritten n open_char : forall istr result istr' result',
  ParseString_chars n open_char istr Datatypes.None result
  = Normal (istr', Datatypes.None, result') ->
  fst (get istr) = Datatypes.None.
Proof.
  assert (forall n istr c result istr' result',
            ParseString_chars n open_char istr (Some c) result
            <> Normal (istr', Datatypes.None, result')) as Hsome.
  { clear n. induction n as [|n IH]; intros istr c result istr' result'; simpl;
      destruct (get istr) as [[d|] istr1]; try done;
      destruct (Ascii.eqb d open_char); try done.
    destruct (Ascii.eqb d BACKSLASH).
    - destruct (get istr1) as [[e|] istr2]; [|done].
      destruct (escape e); simpl; try done; apply IH.
    - destruct (_ || _); [done|]; apply IH. }
  intros istr result istr' result'. destruct n as [|n]; simpl;
    destruct (get istr) as [[d|] istr1]; try done;
    destruct (Ascii.eqb d open_char); try done.
  destruct (Ascii.eqb d BACKSLASH).
  - destruct (get istr1) as [[e|] istr2]; [|done].
    destruct (escape e); simpl; try done; intros H; by apply Hsome in H.
  - destruct (_ || _); [done|]; intros H; by apply Hsome in H.
Qed.

(** [ParseString] is undefined only on a good stream whose single character
    left is a quote. *)
Lemma ParseString_Undefined istr self :
  ParseString istr self = Undefined ->
  exists q, buf istr = [q] /\ (q = SQUOTE \/ q = DQUOTE).
Proof.
  unfold ParseString. intros H.
  destruct (peek istr) as [[c|] istr0] eqn:Ep; [|done].
  apply peek_spec in Ep as (_ & -> & Hg & r & Hb).
  destruct (get istr) as [[q|] istr1] eqn:Eg.
  2:{ unfold get in Eg. rewrite Hg, Hb in Eg. done. }
  pose proof Eg as Eg'. apply get_spec in Eg' as (_ & _ & Hg1 & Hb1 & _).
  rewrite Hb in Hb1. injection Hb1 as <- ->.
  destruct (Ascii.eqb c SQUOTE || Ascii.eqb c DQUOTE) eqn:Eq; [|done].
  destruct (ParseString_chars _ _ _ _ _) as [[[istr2 ch] result]| |] eqn:El;
    simpl in H; try done.
  - destruct ch as [c'|]; [by destruct (Ascii.eqb c c')|].
    apply ParseString_chars_unwritten in El.
    exists c. split.
    + rewrite Hb. f_equal. unfold get in El. rewrite Hg1 in El.
      by destruct (buf istr1).
    + apply orb_true_iff in Eq as [?%Ascii.eqb_eq|?%Ascii.eqb_eq]; auto.
  - by apply ParseString_chars_defined in El.
Qed.

Lemma ParseKeywords_defined istr self : ParseKeywords istr self <> Undefined.
Proof.
  unfold ParseKeywords.
  destruct (peek istr) as [[c|] istr0]; [|done].
  destruct (peek istr0) as [[ch|] istr1]; [|done].
  destruct (_ || _); [|done].
  destruct (ParseKeywords_word _ _ _) as [istr2 keyword].
  by destruct (keywords_map_ !! keyword).
Qed.

Lemma ParseChars_defined istr self : ParseChars istr self <> Undefined.
Proof.
  unfold ParseChars.
  destruct (peek istr) as [[c|] istr0] eqn:Ep; [|done].
  apply peek_spec in Ep as (_ & -> & Hg & r & Hb).
  destruct (get istr) as [[ch|] istr1] eqn:Eg.
  2:{ unfold get in Eg. rewrite Hg, Hb in Eg. done. }
  destruct (ispunct ch); [|done].
  destruct (Ascii.eqb ch HASH); [done|].
  repeat match goal with
  | |- context [followed_by_eq ?a ?b ?i] =>
      destruct (followed_by_eq a b i) as [[] ?]; try done
  end.
Qed.

Lemma ParseNumbers_defined istr self : ParseNumbers istr self <> Undefined.
Proof.
  unfold ParseNumbers.
  destruct (peek istr) as [[c|] istr0]; [|done].
  destruct (peek istr0) as [[ch|] istr1]; [|done].
  destruct (isdigit ch); [|done].
  destruct (ParseNumbers_digits _ _ _) as [istr2 result].
  unfold stoi. by destruct (_ <=? INT_MAX).
Qed.

Lemma ParseIndent_spaces_written n : forall istr ch k istr' k',
  ParseIndent_spaces n istr ch k = (istr', Datatypes.None, k') ->
  ch = Datatypes.None /\ fst (get istr) = Datatypes.None.
Proof.
  induction n as [|n IH]; intros istr ch k istr' k'; simpl;
    destruct (get istr) as [[c|] istr1]; try destruct (Ascii.eqb c SPACE);
    intros H; try (apply IH in H as [? _]); by simplify_eq.
Qed.

Lemma ParseIndent_defined istr self : ParseIndent istr self <> Undefined.
Proof.
  unfold ParseIndent.
  destruct (peek istr) as [[c|] istr0] eqn:Ep; [|done].
  apply peek_spec in Ep as (_ & -> & Hg & r & Hb).
  destruct (ParseIndent_spaces _ _ _ _) as [[istr1 ch] sp] eqn:Esp.
  destruct ch as [c'|].
  - destruct (negb _); simpl; destruct (Ascii.eqb c' NL); simpl; try done;
      by destruct (_ <? 0).
  - apply ParseIndent_spaces_written in Esp as [_ Hget].
    unfold get in Hget. rewrite Hg, Hb in Hget. done.
Qed.

Lemma ParseNewLine_defined istr self : ParseNewLine istr self <> Undefined.
Proof.
  unfold ParseNewLine. destruct (peek istr) as [p istr0].
  destruct (peeked_is p NL); [apply ParseIndent_defined|done].
Qed.

Lemma ParseInputStream_round_Undefined istr self :
  ParseInputStream_round istr self = Undefined ->
  exists q, buf istr = [q] /\ (q = SQUOTE \/ q = DQUOTE).
Proof.
  unfold ParseInputStream_round. intros H.
  destruct (ParseString istr self) as [[i1 s1]| |] eqn:E1; simpl in H; try done;
    [|by apply ParseString_Undefined in E1].
  destruct (ParseKeywords i1 s1) as [[i2 s2]| |] eqn:E2; simpl in H; try done;
    [|by apply ParseKeywords_defined in E2].
  destruct (ParseChars i2 s2) as [[i3 s3]| |] eqn:E3; simpl in H; try done;
    [|by apply ParseChars_defined in E3].
  destruct (ParseNumbers i3 s3) as [[i4 s4]| |] eqn:E4; simpl in H; try done;
    [|by apply ParseNumbers_defined in E4].
  by apply ParseNewLine_defined in H.
Qed.

Lemma ParseInputStream_round_shrinks istr self istr' self' :
  ParseInputStream_round istr self = Normal (istr', self') -> shrinks istr istr'.
Proof.
  unfold ParseInputStream_round. intros H.
  destruct (ParseString istr self) as [[i1 s1]| |] eqn:E1; simpl in H; try done.
  destruct (ParseKeywords i1 s1) as [[i2 s2]| |] eqn:E2; simpl in H; try done.
  destruct (ParseChars i2 s2) as [[i3 s3]| |] eqn:E3; simpl in H; try done.
  destruct (ParseNumbers i3 s3) as [[i4 s4]| |] eqn:E4; simpl in H; try done.
  pose proof (ParseString_shrinks _ _ _ _ E1).
  pose proof (ParseKeywords_shrinks _ _ _ _ E2).
  pose proof (proj1 (ParseChars_shrinks _ _ _ _ E3)).
  pose proof (ParseNumbers_shrinks _ _ _ _ E4).
  pose proof (TrimSpaces_shrinks i4).
  pose proof (ParseNewLine_shrinks _ _ _ _ H).
  eauto 8 using shrinks_trans.
Qed.

Lemma ParseInputStream_loop_Undefined fuel : forall istr self,
  ParseInputStream_loop fuel istr self = Some Undefined ->
  exists pre q, buf istr = pre ++ [q] /\ (q = SQUOTE \/ q = DQUOTE).
Proof.
  induction fuel as [|fuel IH]; intros istr self; simpl;
    destruct (to_bool istr); try done.
  destruct (ParseInputStream_round istr self) as [[i1 s1]| |] eqn:E; try done.
  - intros (pre & q & Hb & Hq)%IH.
    apply ParseInputStream_round_shrinks in E as [[k Hk] _].
    exists (k ++ pre), q. by rewrite Hk, Hb, app_assoc.
  - intros _. apply ParseInputStream_round_Undefined in E as (q & Hb & Hq).
    by exists [], q.
Qed.

(** The outcome of construction is undefined only when the last character
    of the input is a quote (which then opens a literal that nothing
    follows). *)
Lemma Lexer_ctor_Undefined fuel input :
  Lexer_ctor fuel input = Some Undefined ->
  exists pre q, input = pre ++ [q] /\ (q = SQUOTE \/ q = DQUOTE).
Proof.
  unfold Lexer_ctor, ParseInputStream. intros H.
  destruct (ParseInputStream_loop _ _ _) as [[[i s]| |]|] eqn:E; try done.
  apply ParseInputStream_loop_Undefined in E as (pre & q & Hb & Hq).
  destruct (TrimSpaces_shrinks (from_string input)) as [[k Hk] _].
  simpl in Hk. exists (k ++ pre), q. by rewrite Hk, Hb, app_assoc.
Qed.



(** ** Printing tokens *)

Lemma append_brace_inj (s t : string) :
  String.append s "}" = String.append t "}" -> s = t.
Proof.
  revert t. induction s as [|a s IH]; intros [|b t]; simpl; try done.
  - intros [= <- H]. by destruct t.
  - intros [= -> H]. by destruct s.
  - intros [= -> H]. f_equal. by apply IH.
Qed.

(** X22: the text [operator<<] writes for a token determines the token: two
    tokens that print alike are the same alternative with the same
    payload. *)
Theorem print_injective (a b : Token) : print a = print b -> a = b.
Proof.
  destruct a, b; try done; unfold print, print_valued; simpl; intros [= H].
  - apply append_brace_inj in H. f_equal. by apply (inj pretty).
  - apply append_brace_inj in H. by f_equal.
  - by f_equal.
  - apply append_brace_inj in H. by f_equal.
Qed.

Lemma print_injective_witness :
  print (token_type.Number 42) = print (token_type.Number 42)
  /\ token_type.Number 42 = token_type.Number 42.
Proof.
  split; [reflexivity|].
  exact (print_injective (token_type.Number 42) (token_type.Number 42) eq_refl).
Defined.

(** ** Spaces at the end of the input *)

Lemma ParseIndent_spaces_run_eof s : forall n ch k,
  (S s <= n)%nat ->
  ParseIndent_spaces n (from_string (repeat SPACE (S s))) ch k
  = ({| buf := []; eofbit := true; failbit := true |}, Some SPACE,
     k + Z.of_nat (S s)).
Proof.
  induction s as [|s IH]; intros n ch k Hn.
  - destruct n as [|n]; [lia|].
    replace (k + Z.of_nat 1) with (k + 1) by lia. by destruct n.
  - destruct n as [|n]; [lia|].
    change (repeat SPACE (S (S s))) with (SPACE :: repeat SPACE (S s)).
    cbn [ParseIndent_spaces get from_string good buf eofbit failbit negb andb].
    change (Ascii.eqb SPACE SPACE) with true. cbn iota.
    change (mk_istream ?b false false) with (from_string b).
    rewrite IH by lia.
    replace (k + 1 + Z.of_nat (S s)) with (k + Z.of_nat (S (S s))) by lia. done.
Qed.

(** X23: spaces that end the input right after a newline are taken for the
    indentation of a line: [ParseIndent] emits the same [Indent]s or
    [Dedent]s and reaches the same depth as for a line with as many spaces
    before a token; the stream is left at its end with failbit set. *)
Theorem ParseIndent_trailing_spaces (s : nat) (c : ascii) (rest : list ascii)
    (self : Lexer) :
  c <> SPACE -> c <> NL ->
  ParseIndent (from_string (repeat SPACE (S s))) self
  = '(_, self') ← ParseIndent (from_string (repeat SPACE (S s) ++ c :: rest)) self;
    Normal ({| buf := []; eofbit := false; failbit := true |}, self').
Proof.
  intros Hsp Hnl. unfold ParseIndent.
  change (peek (from_string (repeat SPACE (S s))))
    with (Some SPACE, from_string (repeat SPACE (S s))).
  change (peek (from_string (repeat SPACE (S s) ++ c :: rest)))
    with (Some SPACE, from_string (repeat SPACE (S s) ++ c :: rest)).
  cbv iota beta.
  rewrite ParseIndent_spaces_run_eof
    by (cbn [from_string buf]; rewrite repeat_length; lia).
  rewrite ParseIndent_spaces_run;
    [|done|cbn [from_string buf]; rewrite length_app, repeat_length; lia].
  cbn [rdstate_is_eofbit from_string eofbit failbit negb andb].
  assert (Ascii.eqb c NL = false) as -> by (by apply Ascii.eqb_neq).
  change (Ascii.eqb SPACE NL) with false.
  cbn [mbind outcome_bind].
  match goal with
  | |- (if ?b then _ else _) = _ => destruct b; reflexivity
  end.
Qed.

Lemma ParseIndent_trailing_spaces_witness :
  ParseIndent (from_string (bytes "   "))
    (mk_Lexer [token_type.Id "x"; token_type.Newline] 0 0)
  = Normal ({| buf := []; eofbit := false; failbit := true |},
            mk_Lexer [token_type.Id "x"; token_type.Newline;
                      token_type.Indent; token_type.Indent] 0 2).
Proof.
  exact (ParseIndent_trailing_spaces 2 "y" []
           (mk_Lexer [token_type.Id "x"; token_type.Newline] 0 0)
           ltac:(discriminate) ltac:(discriminate)).
Defined.

End LexerProofs.

(** * Properties of the runtime object model *)

Module RuntimeProofs.

Import runtime.

Section RuntimeProofs.

Variables Executable Context : Type.
Variable Execute :
  Executable -> Closure Executable -> Context
  -> outcome (ObjectHolder Executable * Context).

(** ** Method lookup *)

Lemma register_lookup (methods : list (Method Executable)) :
  forall (vftable : gmap string (Method Executable)) (m : string),
  register methods vftable !! m
  = match own_method methods m with
    | Some x => Some x
    | None => vftable !! m
    end.
Proof.
  induction methods as [|x methods IH]; intros vftable m; [done|].
  unfold register in *. simpl. rewrite IH.
  destruct (own_method methods m); [done|].
  destruct (String.eqb_spec (name x) m) as [->|Hne].
  - by rewrite lookup_insert_eq.
  - by rewrite lookup_insert_ne.
Qed.

(** What the table built by the constructor resolves: the class's own
    definition, else the definition among the methods the parent declares
    itself; nothing from further up the chain. *)
Lemma GetMethod_Class_ctor cname methods (parent : option (Class Executable)) m :
  GetMethod (Class_ctor cname methods parent) m
  = match own_method methods m with
    | Some x => Some x
    | None =>
        match parent with
        | Some p => own_method (methods_ p) m
        | None => None
        end
    end.
Proof.
  unfold GetMethod, Class_ctor. simpl. rewrite register_lookup.
  destruct (own_method methods m); [done|].
  destruct parent as [p|]; [|done].
  rewrite register_lookup. by destruct (own_method (methods_ p) m).
Qed.

(** For a class without a grandparent the table agrees with the scan of
    the chain. *)
Lemma GetMethod_scan_chain_two_levels cname methods pname pmethods m :
  let parent : Class Executable := Class_ctor pname pmethods None in
  GetMethod (Class_ctor cname methods (Some parent)) m
  = scan_chain (Class_ctor cname methods (Some parent)) m.
Proof.
  intros parent. rewrite GetMethod_Class_ctor. simpl.
  destruct (own_method methods m); [done|]. by destruct (own_method pmethods m).
Qed.

(** ** Calls and comparison *)

Lemma Call_runs_body cls fields method args context (m : Method Executable) :
  GetMethod cls method = Some m ->
  length (formal_params m) = length args ->
  Call Execute cls fields method args context
  = Execute (body m)
      (bind_params (formal_params m) args
         {[ "self" := Some (ClassInstance cls fields) ]})
      context.
Proof.
  intros Hm Hlen. unfold Call, HasMethod. rewrite Hm, Hlen, Nat.eqb_refl. done.
Qed.

(** C2 (amended): for a class with [__lt__] of arity 1 whose body returns
    [Bool] false and without [__eq__] of arity 1, [Greater] on an instance
    evaluates [Less], which is false, then [Equal], which throws
    [runtime_error]: [Greater] does not return false, it propagates the
    exception.  Only [__lt__] and [__eq__] are looked up; whether the class
    defines [__gt__] plays no part. *)
Theorem Greater_without_eq_throws cls fields rhs context context' m :
  GetMethod cls "__lt__" = Some m ->
  length (formal_params m) = 1%nat ->
  Execute (body m)
    (bind_params (formal_params m) [rhs]
       {[ "self" := Some (ClassInstance cls fields) ]})
    context
  = Normal (Some (Bool false), context') ->
  HasMethod cls "__eq__" 1 = false ->
  Less Execute (Some (ClassInstance cls fields)) rhs context
  = Normal (false, context')
  /\ Equal Execute (Some (ClassInstance cls fields)) rhs context'
     = Throws (runtime_error "Cannot compare objects for equality")
  /\ Greater Execute (Some (ClassInstance cls fields)) rhs context
     = Throws (runtime_error "Cannot compare objects for equality").
Proof.
  intros Hm Hlen Hbody Heq.
  assert (Less Execute (Some (ClassInstance cls fields)) rhs context
          = Normal (false, context')) as HL.
  { unfold Less. simpl.
    assert (HasMethod cls "__lt__" 1 = true) as ->
      by (unfold HasMethod; rewrite Hm, Hlen; done).
    rewrite (Call_runs_body cls fields "__lt__" [rhs] context m Hm Hlen), Hbody.
    done. }
  assert (Equal Execute (Some (ClassInstance cls fields)) rhs context'
          = Throws (runtime_error "Cannot compare objects for equality")) as HE.
  { unfold Equal. simpl. rewrite Heq. by destruct rhs as [[]|]. }
  split; [done|]. split; [done|].
  unfold Greater. rewrite HL. simpl. rewrite HE. done.
Qed.

(** C10: when [Equal] (or [Less]) calls [__eq__] (or [__lt__]) of a class
    instance, the handle the call returns is downcast to [Bool] and
    dereferenced without a test: with a [Bool] the comparison returns its
    value, with anything else, the empty handle included, the behaviour is
    undefined (a null pointer is dereferenced). *)
Theorem dunder_result_unchecked cls fields rhs context result context' :
  (HasMethod cls "__eq__" 1 = true ->
   Call Execute cls fields "__eq__" [rhs] context = Normal (result, context') ->
   Equal Execute (Some (ClassInstance cls fields)) rhs context
   = match TryAs_Bool result with
     | Some b => Normal (b, context')
     | None => Undefined
     end)
  /\ (HasMethod cls "__lt__" 1 = true ->
      Call Execute cls fields "__lt__" [rhs] context = Normal (result, context') ->
      Less Execute (Some (ClassInstance cls fields)) rhs context
      = match TryAs_Bool result with
        | Some b => Normal (b, context')
        | None => Undefined
        end).
Proof.
  split; intros Hhas Hcall.
  - unfold Equal. simpl. rewrite Hhas, Hcall. by destruct rhs as [[]|].
  - unfold Less. simpl. rewrite Hhas, Hcall. by destruct rhs as [[]|].
Qed.

End RuntimeProofs.

Lemma Greater_without_eq_throws_witness :
  GetMethod class_B "__lt__" = Some (mk_Method "__lt__" ["other"] (ReturnBool false))
  /\ HasMethod class_B "__eq__" 1 = false
  /\ Greater constant_Execute instance_of_B instance_of_B tt
     = Throws (runtime_error "Cannot compare objects for equality").
Proof.
  assert (GetMethod class_B "__lt__"
          = Some (mk_Method "__lt__" ["other"] (ReturnBool false))) as Hm
    by (vm_compute; reflexivity).
  assert (HasMethod class_B "__eq__" 1 = false) as Heq
    by (vm_compute; reflexivity).
  split; [exact Hm|]. split; [exact Heq|].
  exact (proj2 (proj2 (Greater_without_eq_throws constant_body unit
    constant_Execute class_B ∅ instance_of_B tt tt _ Hm eq_refl eq_refl Heq))).
Defined.

(** C2 as stated fails: with [class B] of the scenario, [Greater(B(), B())]
    does not return false, it throws. *)
Lemma Greater_B_B_throws :
  Less constant_Execute instance_of_B instance_of_B tt = Normal (false, tt)
  /\ Greater constant_Execute instance_of_B instance_of_B tt
     = Throws (runtime_error "Cannot compare objects for equality")
  /\ Greater constant_Execute instance_of_B instance_of_B tt <> Normal (false, tt).
Proof.
  assert (Greater constant_Execute instance_of_B instance_of_B tt
          = Throws (runtime_error "Cannot compare objects for equality")) as H
    by (vm_compute; reflexivity).
  split; [vm_compute; reflexivity|]. split; [exact H|].
  rewrite H. discriminate.
Qed.

Lemma dunder_result_unchecked_witness :
  HasMethod class_N "__eq__" 1 = true
  /\ Call constant_Execute class_N ∅ "__eq__" [None] tt
     = Normal (Some (Number 1), tt)
  /\ Equal constant_Execute (Some (ClassInstance class_N ∅)) None tt = Undefined
  /\ Less constant_Execute (Some (ClassInstance class_N ∅)) None tt = Undefined.
Proof.
  assert (HasMethod class_N "__eq__" 1 = true) as H1 by (vm_compute; reflexivity).
  assert (Call constant_Execute class_N ∅ "__eq__" [None] tt
          = Normal (Some (Number 1), tt)) as H2 by (vm_compute; reflexivity).
  assert (HasMethod class_N "__lt__" 1 = true) as H3 by (vm_compute; reflexivity).
  assert (Call constant_Execute class_N ∅ "__lt__" [None] tt
          = Normal (Some (Number 1), tt)) as H4 by (vm_compute; reflexivity).
  split; [exact H1|]. split; [exact H2|]. split.
  - exact (proj1 (dunder_result_unchecked constant_body unit constant_Execute
                    class_N ∅ None tt (Some (Number 1)) tt) H1 H2).
  - exact (proj2 (dunder_result_unchecked constant_body unit constant_Execute
                    class_N ∅ None tt (Some (Number 1)) tt) H3 H4).
Defined.

(** C1 fails on the code: in the chain [C1 <: C2 <: C3] where only [C3]
    defines [m], scanning from [C1] toward [C3] finds the method, and
    [GetMethod] on [C2] finds it, but [GetMethod] on [C1] returns the null
    pointer: the constructor seeds the table from the methods the parent
    declares itself, not from the parent's table. *)
Theorem GetMethod_misses_grandparent :
  parent_ class_C1 = Some class_C2 /\ parent_ class_C2 = Some class_C3
  /\ scan_chain class_C1 "m" = Some method_m
  /\ GetMethod class_C2 "m" = Some method_m
  /\ GetMethod class_C1 "m" = None.
Proof. repeat split; vm_compute; reflexivity. Qed.


Section BuiltinComparison.

Variables Executable Context : Type.
Variable Execute :
  Executable -> Closure Executable -> Context
  -> outcome (ObjectHolder Executable * Context).

Lemma String_trichotomy (s t : string) :
  (String.ltb s t = true /\ String.eqb s t = false /\ String.ltb t s = false)
  \/ (String.ltb s t = false /\ String.eqb s t = true /\ String.ltb t s = false)
  \/ (String.ltb s t = false /\ String.eqb s t = false /\ String.ltb t s = true).
Proof.
  unfold String.ltb. rewrite (String.compare_antisym t s).
  destruct (String.eqb_spec s t) as [->|Hne].
  - assert (String.compare t t = Eq) as ->.
    { pose proof (String.compare_antisym t t) as H.
      by destruct (String.compare t t). }
    simpl. auto.
  - destruct (String.compare s t) eqn:E; simpl; auto.
    by apply String.compare_eq_iff in E.
Qed.

(** X14: on two numbers, two strings or two booleans, [Equal] returns
    true exactly when the two values are the same, and leaves the context as
    it is; in particular it is reflexive and symmetric there, and two empty
    handles are equal. *)
Theorem Equal_same_kind (a b : ObjectHolder Executable) (context : Context) :
  same_kind a b = true ->
  exists e,
    Equal Execute a b context = Normal (e, context)
    /\ Equal Execute b a context = Normal (e, context)
    /\ (e = true <-> a = b)
    /\ Equal Execute a a context = Normal (true, context)
    /\ Equal Execute None None context = Normal (true, context).
Proof.
  destruct a as [[x|x|x| |]|], b as [[y|y|y| |]|]; try done; intros _.
  - exists (x =? y). unfold Equal; simpl. rewrite (Z.eqb_sym y x), Z.eqb_refl.
    repeat split; try done.
    + by intros ->%Z.eqb_eq.
    + intros [= ->]. apply Z.eqb_refl.
  - exists (String.eqb x y). unfold Equal; simpl.
    rewrite (String.eqb_sym y x), String.eqb_refl.
    repeat split; try done.
    + by intros ->%String.eqb_eq.
    + intros [= ->]. apply String.eqb_refl.
  - exists (Bool.eqb x y). unfold Equal; simpl.
    repeat split; try done; by destruct x, y.
Qed.


(** X16: only the left operand's class is ever consulted.  When the left
    operand is not a class instance and the operands are not two numbers,
    two strings or two booleans, [Less] throws [runtime_error], and so does
    [Equal] unless both handles are empty, whatever the right operand is
    (a class instance with [__eq__] and [__lt__] included).  On two empty
    handles [Equal] is true while [Less], [LessOrEqual] and
    [GreaterOrEqual] throw. *)
Theorem comparison_dispatches_on_left (lhs rhs : ObjectHolder Executable)
    (context : Context) :
  TryAs_ClassInstance lhs = None -> same_kind lhs rhs = false ->
  Less Execute lhs rhs context
  = Throws (runtime_error "Cannot compare objects for less")
  /\ LessOrEqual Execute lhs rhs context
     = Throws (runtime_error "Cannot compare objects for less")
  /\ GreaterOrEqual Execute lhs rhs context
     = Throws (runtime_error "Cannot compare objects for less")
  /\ Equal Execute lhs rhs context
     = (if negb (to_bool lhs) && negb (to_bool rhs) then Normal (true, context)
        else Throws (runtime_error "Cannot compare objects for equality")).
Proof.
  intros Hl Hk.
  assert (Less Execute lhs rhs context
          = Throws (runtime_error "Cannot compare objects for less")) as HL
    by (by destruct lhs as [[]|], rhs as [[]|]).
  unfold LessOrEqual, GreaterOrEqual. rewrite HL. repeat split; try done.
  by destruct lhs as [[]|], rhs as [[]|].
Qed.

(** X17: the derived comparisons call [__eq__] only when [__lt__] has
    answered false.  For a class instance whose [__lt__] of arity 1 returns
    the boolean [b], [GreaterOrEqual] returns the negation of [b] without
    any equality test, and when [b] is true [LessOrEqual] returns true and
    [Greater] false, whether or not the class has an [__eq__]. *)
Theorem derived_comparisons_short_circuit cls fields rhs context context' b :
  HasMethod cls "__lt__" 1 = true ->
  Call Execute cls fields "__lt__" [rhs] context
  = Normal (Some (Bool b), context') ->
  Less Execute (Some (ClassInstance cls fields)) rhs context = Normal (b, context')
  /\ GreaterOrEqual Execute (Some (ClassInstance cls fields)) rhs context
     = Normal (negb b, context')
  /\ (b = true ->
      LessOrEqual Execute (Some (ClassInstance cls fields)) rhs context
      = Normal (true, context')
      /\ Greater Execute (Some (ClassInstance cls fields)) rhs context
         = Normal (false, context')).
Proof.
  intros Hhas Hcall.
  assert (Less Execute (Some (ClassInstance cls fields)) rhs context
          = Normal (b, context')) as HL.
  { unfold Less. simpl. rewrite Hhas, Hcall. by destruct rhs as [[]|]. }
  unfold GreaterOrEqual, LessOrEqual, Greater. rewrite HL. simpl.
  split; [done|]. split; [done|]. by intros ->.
Qed.

(** ** Calls *)

Lemma bind_params_lookup (formals : list string) :
  forall (actuals : list (ObjectHolder Executable)) (closure : Closure Executable),
  length formals = length actuals -> NoDup formals ->
  (forall i x a, formals !! i = Some x -> actuals !! i = Some a ->
     bind_params formals actuals closure !! x = Some a)
  /\ (forall y, y ∉ formals ->
        bind_params formals actuals closure !! y = closure !! y).
Proof.
  unfold Closure, ObjectHolder.
  induction formals as [|f formals IH]; intros actuals closure Hlen Hnd.
  - split; [by intros []|done].
  - destruct actuals as [|a0 actuals]; [done|]. simpl in Hlen.
    apply NoDup_cons in Hnd as [Hf Hnd].
    destruct (IH actuals (<[f:=a0]> closure)) as [IH1 IH2]; [lia|done|].
    split.
    + intros [|i] x a; simpl.
      * intros [= <-] [= <-]. rewrite IH2 by done. apply lookup_insert_eq.
      * apply IH1.
    + intros y Hy. apply not_elem_of_cons in Hy as [Hne Hy].
      rewrite IH2 by done. by apply lookup_insert_ne.
Qed.

(** X18: a call of a method with as many actuals as the method has
    formals runs the method's body in a fresh closure in which, the formal
    names being distinct, each formal is bound to the actual at its
    position, [self] is bound to the receiver unless a formal is named
    [self], and no other name is bound. *)
Theorem Call_binds_arguments cls fields method args context
    (m : Method Executable) :
  GetMethod cls method = Some m ->
  length (formal_params m) = length args ->
  NoDup (formal_params m) ->
  exists closure : Closure Executable,
    Call Execute cls fields method args context
    = Execute (body m) closure context
    /\ (forall i x a, formal_params m !! i = Some x -> args !! i = Some a ->
          closure !! x = Some a)
    /\ ("self" ∉ formal_params m ->
        closure !! "self" = Some (Some (ClassInstance cls fields)))
    /\ (forall y, y ∉ formal_params m -> y <> "self" -> closure !! y = None).
Proof.
  intros Hm Hlen Hnd.
  destruct (bind_params_lookup (formal_params m) args
              {[ "self" := Some (ClassInstance cls fields) ]} Hlen Hnd)
    as [H1 H2].
  eexists. split; [by apply Call_runs_body|].
  unfold Closure, ObjectHolder in *.
  split; [exact H1|]. split.
  - intros Hs. rewrite H2 by done. apply lookup_singleton_eq.
  - intros y Hy Hne. rewrite H2 by done. by apply lookup_singleton_ne.
Qed.

(** X19: a call with a method name the table does not resolve, or with a
    number of actuals other than the number of formals, throws
    [runtime_error] and runs no body. *)
Theorem Call_undefined_method cls fields method args context :
  (GetMethod cls method = None
   \/ exists m, GetMethod cls method = Some m
                /\ length (formal_params m) <> length args) ->
  HasMethod cls method (length args) = false
  /\ Call Execute cls fields method args context
     = Throws (runtime_error "Call for a not defined method").
Proof.
  intros H.
  assert (HasMethod cls method (length args) = false) as Hhas.
  { unfold HasMethod. destruct H as [->|(m & -> & Hne)]; [done|].
    by apply Nat.eqb_neq. }
  split; [done|]. unfold Call. by rewrite Hhas.
Qed.

(** ** Truth values *)

(** X20: [IsTrue] holds exactly of a non-zero number, of the boolean true
    and of a non-empty string; the empty handle, classes and class
    instances are never true. *)
Theorem IsTrue_iff (object : ObjectHolder Executable) :
  IsTrue object = true
  <-> (exists v, object = Some (Number v) /\ v <> 0)
      \/ object = Some (Bool true)
      \/ (exists s, object = Some (String s) /\ s <> EmptyString).
Proof.
  destruct object as [[v|s|b|c|c f]|]; unfold IsTrue; simpl.
  - split.
    + intros H. left. exists v. split; [done|]. by intros ->.
    + intros [(v' & [= <-] & Hn)|[?|(? & ? & ?)]]; try done.
      by apply negb_true_iff, Z.eqb_neq.
  - split.
    + intros H. right. right. exists s. split; [done|]. by intros ->.
    + intros [(? & ? & ?)|[?|(s' & [= <-] & Hn)]]; try done. by destruct s.
  - split.
    + intros ->. auto.
    + by intros [(? & ? & ?)|[?|(? & ? & ?)]]; simplify_eq.
  - split; [done|]. by intros [(? & ? & ?)|[?|(? & ? & ?)]].
  - split; [done|]. by intros [(? & ? & ?)|[?|(? & ? & ?)]].
  - split; [done|]. by intros [(? & ? & ?)|[?|(? & ? & ?)]].
Qed.

(** ** Method tables *)

Lemma own_method_None (methods : list (Method Executable)) m :
  m ∉ map name methods -> own_method methods m = None.
Proof.
  induction methods as [|x methods IH]; simpl; [done|].
  intros [Hne Hm]%not_elem_of_cons. rewrite IH by done.
  destruct (String.eqb_spec (name x) m); [congruence|done].
Qed.

Lemma own_method_In (methods : list (Method Executable)) x :
  NoDup (map name methods) -> x ∈ methods ->
  own_method methods (name x) = Some x.
Proof.
  induction methods as [|y methods IH]; simpl; [by intros _ ?%elem_of_nil|].
  intros [Hy Hnd]%NoDup_cons [->|Hx]%elem_of_cons.
  - rewrite own_method_None by done. by rewrite String.eqb_refl.
  - by rewrite IH.
Qed.

(** X21: with distinct method names in each class, [GetMethod] on a class
    returns the method the class declares under that name, whatever its
    parent declares (override); for a name the class does not declare it
    returns the method the parent declares itself under that name; and the
    null pointer when neither declares it. *)
Theorem GetMethod_override_and_inherit cname methods
    (parent : Class Executable) :
  NoDup (map name methods) -> NoDup (map name (methods_ parent)) ->
  (forall x, x ∈ methods ->
     GetMethod (Class_ctor cname methods (Some parent)) (name x) = Some x)
  /\ (forall x, x ∈ methods_ parent -> name x ∉ map name methods ->
        GetMethod (Class_ctor cname methods (Some parent)) (name x) = Some x)
  /\ (forall m, m ∉ map name methods -> m ∉ map name (methods_ parent) ->
        GetMethod (Class_ctor cname methods (Some parent)) m = None).
Proof.
  intros Hnd Hndp. repeat split.
  - intros x Hx. rewrite GetMethod_Class_ctor. by rewrite own_method_In.
  - intros x Hx Hn. rewrite GetMethod_Class_ctor.
    rewrite own_method_None by done. by apply own_method_In.
  - intros m Hm Hp. rewrite GetMethod_Class_ctor.
    rewrite own_method_None by done. by apply own_method_None.
Qed.

End BuiltinComparison.

Lemma Equal_same_kind_witness :
  same_kind (Some (Number 3)) (Some (@Number constant_body 3)) = true
  /\ Equal constant_Execute (Some (Number 3)) (Some (Number 3)) tt
     = Normal (true, tt).
Proof.
  split; [reflexivity|].
  destruct (Equal_same_kind constant_body unit constant_Execute
              (Some (Number 3)) (Some (Number 3)) tt eq_refl)
    as (e & _ & _ & _ & H & _).
  exact H.
Defined.


Lemma comparison_dispatches_on_left_witness :
  TryAs_ClassInstance (@None (Object constant_body)) = None
  /\ same_kind None instance_of_B = false
  /\ Less constant_Execute None instance_of_B tt
     = Throws (runtime_error "Cannot compare objects for less").
Proof.
  split; [reflexivity|]. split; [reflexivity|].
  exact (proj1 (comparison_dispatches_on_left constant_body unit
                  constant_Execute None instance_of_B tt eq_refl eq_refl)).
Defined.

Lemma derived_comparisons_short_circuit_witness :
  HasMethod class_B "__lt__" 1 = true
  /\ Call constant_Execute class_B ∅ "__lt__" [instance_of_B] tt
     = Normal (Some (Bool false), tt)
  /\ GreaterOrEqual constant_Execute instance_of_B instance_of_B tt
     = Normal (true, tt).
Proof.
  assert (HasMethod class_B "__lt__" 1 = true) as H1 by (vm_compute; reflexivity).
  assert (Call constant_Execute class_B ∅ "__lt__" [instance_of_B] tt
          = Normal (Some (Bool false), tt)) as H2 by (vm_compute; reflexivity).
  split; [exact H1|]. split; [exact H2|].
  exact (proj1 (proj2 (derived_comparisons_short_circuit constant_body unit
    constant_Execute class_B ∅ instance_of_B tt tt false H1 H2))).
Defined.

Lemma Call_binds_arguments_witness :
  GetMethod class_B "__lt__" = Some (mk_Method "__lt__" ["other"] (ReturnBool false))
  /\ exists closure : Closure constant_body,
       Call constant_Execute class_B ∅ "__lt__" [Some (Number 7)] tt
       = constant_Execute (ReturnBool false) closure tt
       /\ closure !! "other" = Some (Some (Number 7)).
Proof.
  assert (GetMethod class_B "__lt__"
          = Some (mk_Method "__lt__" ["other"] (ReturnBool false))) as Hm
    by (vm_compute; reflexivity).
  split; [exact Hm|].
  destruct (Call_binds_arguments constant_body unit constant_Execute class_B ∅
              "__lt__" [Some (Number 7)] tt _ Hm eq_refl
              ltac:(apply NoDup_singleton))
    as (closure & H1 & H2 & _).
  exists closure. split; [exact H1|].
  exact (H2 0%nat "other" (Some (Number 7)) eq_refl eq_refl).
Defined.

Lemma Call_undefined_method_witness :
  GetMethod class_B "__eq__" = None
  /\ Call constant_Execute class_B ∅ "__eq__" [None] tt
     = Throws (runtime_error "Call for a not defined method").
Proof.
  assert (GetMethod class_B "__eq__" = None) as H by (vm_compute; reflexivity).
  split; [exact H|].
  exact (proj2 (Call_undefined_method constant_body unit constant_Execute
                  class_B ∅ "__eq__" [None] tt (or_introl H))).
Defined.

Lemma GetMethod_override_and_inherit_witness :
  NoDup (map name [method_m]) /\ NoDup (map name (methods_ class_C3))
  /\ GetMethod (Class_ctor "D" [method_m] (Some class_C3)) "m" = Some method_m.
Proof.
  assert (NoDup (map name [method_m])) as H1 by apply NoDup_singleton.
  assert (NoDup (map name (methods_ class_C3))) as H2 by apply NoDup_singleton.
  split; [exact H1|]. split; [exact H2|].
  exact (proj1 (GetMethod_override_and_inherit unit "D" [method_m] class_C3 H1 H2)
           method_m ltac:(apply elem_of_cons; left; reflexivity)).
Defined.

End RuntimeProofs.
